(** * Region: boundary-point regions of a raster image

    A shallow embedding of [src/processors/region.cpp] (class
    [ImageProcessing::Region]) and the properties of its constructors and
    queries.

    Conventions of the embedding.
    - C++ [int] values are integers of [Z]; the statements below hold on the
      ranges where the source's [int] arithmetic does not overflow.
    - [QList<RPoint> points] is a [list RPoint]; [points[i]] is the list
      lookup at [Z.to_nat i].
    - [QMap<int,int> ycoords] is a [gmap Z Z]; [QMap::insert] replaces the
      value of a key that is already present, like [<[k:=v]>].
    - An access that C++ leaves undefined (an index outside an array, a
      matrix element outside the matrix, [first()] of an empty list) ends
      the modelled call with a [Fault] naming the access. *)

From stdpp Require Import gmap list numbers sorting.
From Stdlib Require Import ZArith Lia.

Local Open Scope Z_scope.
#[local] Set Warnings "-clear-no-such-hyp".

(** ** Faults and the error monad *)

Inductive fault : Type :=
  | EmptyFirst                         (* points.first() on an empty list *)
  | EmptyLast                          (* points.last() on an empty list *)
  | ReadOutsideRow (row col : Z)       (* m.at<int>(row,col) leaves the row *)
  | BadAlloc (n : Z)                   (* a negative size *)
  | XmapOutOfBounds (j size : Z)       (* xmap[j] outside new char[size] *)
  | MatOutOfBounds (row col : Z).      (* m.at<uchar>(row,col) outside m *)

Inductive result (A : Type) : Type :=
  | Ok (a : A)
  | Fault (f : fault).
Arguments Ok {A} a.
Arguments Fault {A} f.

Global Instance result_ret : MRet result := λ A a, Ok a.
Global Instance result_bind : MBind result := λ A B k c,
  match c with
  | Ok a => k a
  | Fault f => Fault f
  end.

Definition is_ok {A} (c : result A) : bool :=
  match c with Ok _ => true | Fault _ => false end.

(** ** Points *)

Record RPoint : Type := mkRPoint { px : Z; py : Z }.

Global Instance RPoint_eq_dec : EqDecision RPoint.
Proof. solve_decision. Defined.

(** Modelled from the spec: [RPoint::operator==] is declared in a header
    that is not part of the sources; points are equal when both coordinates
    are ("comparing each candidate point's full coordinate"). *)
Definition RPoint_eqb (a b : RPoint) : bool :=
  (px a =? px b) && (py a =? py b).

(** Modelled from the spec: [RPoint::operator+] is declared in the same
    missing header; the spec gives component-wise addition. *)
Definition RPoint_add (a b : RPoint) : RPoint :=
  mkRPoint (px a + px b) (py a + py b).

(** ** Regions *)

Record Region : Type := mkRegion {
  bound_min : RPoint;
  bound_max : RPoint;
  points : list RPoint;
  ycoords : gmap Z Z
}.

(** [Region::buildYMap]: the loop [for(i = 0; i < points.size(); i++)],
    carrying [current] and the map. *)
Fixpoint buildYMap_loop (i current : Z) (ym : gmap Z Z) (rest : list RPoint)
  : gmap Z Z :=
  match rest with
  | [] => ym
  | q :: rest' =>
      if negb (current =? py q)
      then buildYMap_loop (i + 1) (py q) (<[py q := i]> ym) rest'
      else buildYMap_loop (i + 1) current ym rest'
  end.

Definition buildYMap (pts : list RPoint) : gmap Z Z :=
  match pts with
  | [] => ∅
  | p0 :: _ => buildYMap_loop 0 (py p0) (<[py p0 := 0]> ∅) pts
  end.

(** [Region::Region()]: no points; the bounds are default-constructed. *)
Definition Region_default : Region :=
  mkRegion (mkRPoint 0 0) (mkRPoint 0 0) [] ∅.

Definition isEmpty (r : Region) : bool :=
  Z.of_nat (length (points r)) =? 0.

(** ** Boundary membership *)

(** The loop of [Region::inBoundary],
    [for(int i = start; i < points.size() && i == p.y(); i++)], run on the
    suffix of [points] that starts at index [i]: [i < points.size()] is
    "the suffix is not empty".  The second conjunct compares the index [i]
    itself with [p.y()], as the source does.  The start index comes from
    the row index, whose values are positions of [points]
    ([buildYMap_lookup_range]). *)
Fixpoint inBoundary_loop (p : RPoint) (i : Z) (rest : list RPoint) : bool :=
  match rest with
  | [] => false
  | q :: rest' =>
      if i =? py p
      then if RPoint_eqb q p then true else inBoundary_loop p (i + 1) rest'
      else false
  end.

Definition inBoundary (r : Region) (p : RPoint) : bool :=
  match ycoords r !! py p with
  | None => false
  | Some start => inBoundary_loop p start (drop (Z.to_nat start) (points r))
  end.

(** ** Loops *)

(** [for(i = lo; i < hi; i++) body], threading the state [st]. *)
Definition for_range {S : Type} (lo hi : Z) (body : Z → S → S) (st : S) : S :=
  foldl (λ st i, body i st) st (seqZ lo (hi - lo)).

(** The same loop for a body that can fault; the first fault ends it. *)
Fixpoint for_each {S : Type} (idx : list Z) (body : Z → S → result S)
  (st : S) : result S :=
  match idx with
  | [] => Ok st
  | i :: idx' => st' ← body i st; for_each idx' body st'
  end.

Definition for_rangeM {S : Type} (lo hi : Z) (body : Z → S → result S)
  (st : S) : result S :=
  for_each (seqZ lo (hi - lo)) body st.

(** ** Matrices *)

(** What the constructor uses of a [cv::Mat] of [uchar] cells: the size [s]
    and the position [p] that [m.locateROI(s,p)] reports, and the cells,
    [s.height] rows of [s.width] values each. *)
Record Mat : Type := mkMat {
  roi_width : Z;
  roi_height : Z;
  roi_x : Z;
  roi_y : Z;
  cells : list (list Z)
}.

Definition Mat_wf (m : Mat) : Prop :=
  0 ≤ roi_width m ∧ 0 ≤ roi_height m ∧
  Z.of_nat (length (cells m)) = roi_height m ∧
  Forall (λ row, Z.of_nat (length row) = roi_width m ∧
                 Forall (λ v, 0 ≤ v < 256) row) (cells m).

(** [m.ptr<uchar>(i)[j]]; on a well-formed matrix the constructor reads it
    inside the grid only. *)
Definition cell (m : Mat) (i j : Z) : Z :=
  default 0 (row ← cells m !! Z.to_nat i; row !! Z.to_nat j).

(** [m.at<int>(row,col)] on a matrix of [uchar]: the four bytes of row [row]
    from byte [4*col] on, read as one little-endian [int].  A read that
    leaves the row depends on the memory around it and is a fault here. *)
Definition at_int (m : Mat) (row col : Z) : result Z :=
  if (0 <=? row) && (row <? roi_height m) && (0 <=? col)
     && (4 * col + 3 <? roi_width m)
  then Ok (Z.lor (cell m row (4 * col))
          (Z.lor (Z.shiftl (cell m row (4 * col + 1)) 8)
          (Z.lor (Z.shiftl (cell m row (4 * col + 2)) 16)
                 (Z.shiftl (cell m row (4 * col + 3)) 24))))
  else Fault (ReadOutsideRow row col).

(** [Mat::zeros(rows, cols, CV_8UC1)]. *)
Definition Mat_zeros (rows cols : Z) : result Mat :=
  if rows <? 0 then Fault (BadAlloc rows)
  else if cols <? 0 then Fault (BadAlloc cols)
  else Ok (mkMat cols rows 0 0
             (replicate (Z.to_nat rows) (replicate (Z.to_nat cols) 0))).

(** [m.at<uchar>(row,col) = v]. *)
Definition Mat_set (m : Mat) (row col v : Z) : result Mat :=
  if (0 <=? row) && (row <? roi_height m) && (0 <=? col)
     && (col <? roi_width m)
  then Ok (mkMat (roi_width m) (roi_height m) (roi_x m) (roi_y m)
             (alter (λ r, <[Z.to_nat col := v]> r) (Z.to_nat row) (cells m)))
  else Fault (MatOutOfBounds row col).

(** ** Construction *)

(** The condition of the [if] in the mask loop, with its short-circuit
    order: the two [at<int>] reads happen only for a set cell that is off
    the border and has both row neighbours set. *)
Definition mask_edge (m : Mat) (i j : Z) : result bool :=
  if cell m i j =? 0 then Ok false
  else if (i =? 0) || (j =? 0) || (i =? roi_height m - 1)
          || (j =? roi_width m - 1)
          || (cell m i (j - 1) =? 0) || (cell m i (j + 1) =? 0)
  then Ok true
  else
    up ← at_int m j (i - 1);
    if up =? 0 then Ok true
    else down ← at_int m j (i + 1); Ok (down =? 0).

Definition mask_cell (m : Mat) (i j : Z) (pts : list RPoint)
  : result (list RPoint) :=
  e ← mask_edge m i j;
  Ok (if e : bool then pts ++ [mkRPoint (j + roi_x m) (i + roi_y m)] else pts).

Definition mask_points (m : Mat) : result (list RPoint) :=
  for_rangeM 0 (roi_height m)
    (λ i pts, for_rangeM 0 (roi_width m) (mask_cell m i) pts) [].

Definition rect_points (m : Mat) : list RPoint :=
  let pts := for_range 0 (roi_width m)
               (λ i pts, pts ++ [mkRPoint (roi_x m + i) (roi_y m)]) [] in
  let pts := for_range 1 (roi_height m - 1)
               (λ i pts, (pts ++ [mkRPoint (roi_x m) (roi_y m + i)])
                           ++ [mkRPoint (roi_x m + roi_width m - 1)
                                        (roi_y m + i)]) pts in
  for_range 0 (roi_width m)
    (λ i pts, pts ++ [mkRPoint (roi_x m + i) (roi_y m + roi_height m - 1)])
    pts.

(** [points.first()] and [points.last()]. *)
Definition first (pts : list RPoint) : result RPoint :=
  match head pts with Some p => Ok p | None => Fault EmptyFirst end.

Definition last (pts : list RPoint) : result RPoint :=
  match list.last pts with Some p => Ok p | None => Fault EmptyLast end.

(** The [else] branch of the constructor (rectangle mode), followed by
    [buildYMap()]. *)
Definition Region_rect (m : Mat) : Region :=
  let bmin := mkRPoint (roi_x m) (roi_y m) in
  let bmax := mkRPoint (roi_x m + roi_width m) (roi_y m + roi_height m) in
  let pts := rect_points m in
  mkRegion bmin bmax pts (buildYMap pts).

(** The [if(mask)] branch (mask mode), followed by [buildYMap()]. *)
Definition Region_mask (m : Mat) : result Region :=
  pts ← mask_points m;
  bmin ← first pts;
  bmax ← last pts;
  Ok (mkRegion bmin bmax pts (buildYMap pts)).

(** [Region::Region(const Mat &m, bool mask)]. *)
Definition Region_of_Mat (m : Mat) (mask : bool) : result Region :=
  if mask then Region_mask m else Ok (Region_rect m).

(** A [w]×[h] matrix at offset ([x],[y]) with every cell set to [v]. *)
Definition Mat_fill (w h x y v : Z) : Mat :=
  mkMat w h x y (replicate (Z.to_nat h) (replicate (Z.to_nat w) v)).

(** ** Queries *)

(** The loop of [Region::interior].  [fuel] bounds the number of
    iterations; [interior_loop_total] shows that the bound used by
    [interior] is never reached. *)
Fixpoint interior_loop (r : Region) (p : RPoint) (fuel : nat) (i : Z)
  (x_plus x_minus y_plus y_minus : bool) : option bool :=
  if negb x_plus && negb x_minus && negb y_plus && negb y_minus then
    match fuel with
    | O => None
    | S fuel' =>
        let x_plus :=
          if negb x_plus && inBoundary r (RPoint_add p (mkRPoint i 0))
          then true else x_plus in
        let x_minus :=
          if negb x_minus && inBoundary r (RPoint_add p (mkRPoint (- i) 0))
          then true else x_minus in
        let y_plus :=
          if negb y_plus && inBoundary r (RPoint_add p (mkRPoint 0 i))
          then true else y_plus in
        let y_minus :=
          if negb y_minus && inBoundary r (RPoint_add p (mkRPoint 0 (- i)))
          then true else y_minus in
        if (px p - i <? px (bound_min r)) && (px p + i >? px (bound_max r))
           && (py p - i <? py (bound_min r)) && (py p + i >? py (bound_max r))
        then Some false
        else interior_loop r p fuel' (i + 1) x_plus x_minus y_plus y_minus
    end
  else Some true.

(** The largest distance from [p] to a side of the bounding box; at a
    larger [i] the four exit tests all hold. *)
Definition interior_reach (r : Region) (p : RPoint) : Z :=
  Z.max (Z.max (px p - px (bound_min r)) (px (bound_max r) - px p))
        (Z.max (py p - py (bound_min r)) (py (bound_max r) - py p)).

Definition interior (r : Region) (p : RPoint) : bool :=
  default false
    (interior_loop r p (S (Z.to_nat (interior_reach r p))) 1
       false false false false).

(** [Region::adjacentPoint(const RPoint p)]: the definition has the one
    parameter [p] and probes the boundary of the region it is called on. *)
Definition adjacentPoint (r : Region) (p : RPoint) : bool :=
  inBoundary r (RPoint_add p (mkRPoint (-1) 0))
  || inBoundary r (RPoint_add p (mkRPoint 1 0))
  || inBoundary r (RPoint_add p (mkRPoint 0 (-1)))
  || inBoundary r (RPoint_add p (mkRPoint 0 1)).

Section WithAdjacentPointCall.

(** The call [adjacentPoint(points[i], other)] in [Region::adjacentTo] has
    two arguments; the sources define [adjacentPoint] with the one parameter
    [p] and nothing with two.  What the call resolves to is a parameter: a
    function of the region the loop runs in, the point and [other]. *)
Variable adjacentPoint_call : Region → RPoint → Region → bool.

(** [Region::adjacentTo]: the bounding-box test, then the loop over the
    region's own points. *)
Definition adjacentTo (r other : Region) : bool :=
  if ((px (bound_max other) <? px (bound_min r))
      && (py (bound_max other) <? py (bound_min r)))
     || ((px (bound_max r) <? px (bound_min other))
         && (py (bound_max r) <? py (bound_min other)))
  then false
  else existsb (λ p, adjacentPoint_call r p other) (points r).

End WithAdjacentPointCall.

(** Two resolutions of the call.  In the first the second argument is
    dropped and the defined [adjacentPoint] runs on the region itself; in
    the second, the one the comment above [adjacentTo] describes, the
    probes go to the boundary of [other]. *)
Definition adjacentPoint_on_self (r : Region) (p : RPoint) (other : Region)
  : bool := adjacentPoint r p.

Definition adjacentPoint_on_other (r : Region) (p : RPoint) (other : Region)
  : bool := adjacentPoint other p.

(** [char *xmap = new char[size]]: the cells hold whatever [init] says, the
    array is not initialised by the source. *)
Definition xmap_new (init : Z → Z) (size : Z) : result (list Z) :=
  if size <? 0 then Fault (BadAlloc size)
  else Ok (init <$> seqZ 0 size).

Definition xmap_get (xmap : list Z) (j : Z) : result Z :=
  if (0 <=? j) && (j <? Z.of_nat (length xmap))
  then Ok (default 0 (xmap !! Z.to_nat j))
  else Fault (XmapOutOfBounds j (Z.of_nat (length xmap))).

Definition xmap_set (xmap : list Z) (j v : Z) : result (list Z) :=
  if (0 <=? j) && (j <? Z.of_nat (length xmap))
  then Ok (<[Z.to_nat j := v]> xmap)
  else Fault (XmapOutOfBounds j (Z.of_nat (length xmap))).

Section WithOrder.

(** [RPoint::operator<] is declared in a header that is not part of the
    sources, and the spec leaves the rule open; the queries that use it
    take it as a parameter. *)
Variable RPoint_lt : RPoint → RPoint → bool.

(** [Region::contains]. *)
Definition contains (r : Region) (p : RPoint) : bool :=
  if RPoint_lt p (bound_min r) || RPoint_lt (bound_max r) p then false
  else inBoundary r p || interior r p.

(** The body of the inner loop of [Region::toMask] at row [i], column
    [j]; the state is [xmap] and the matrix [m]. *)
Definition toMask_cell (r : Region) (i j : Z) (st : list Z * Mat)
  : result (list Z * Mat) :=
  let p := mkRPoint j i in
  xmap ←
    (if inBoundary r p then
       v ← xmap_get st.1 j;
       xmap_set st.1 j (Z.lor v 1)
     else
       v ← xmap_get st.1 j;
       xmap ← (if negb (Z.land v 1 =? 0) && contains r p
               then xmap_set st.1 j (Z.lor v 2)
               else Ok st.1);
       v ← xmap_get xmap j;
       xmap_set xmap j (Z.land v (Z.lnot 1)));
  v ← xmap_get xmap j;
  if negb (Z.land v 3 =? 0)
  then m ← Mat_set st.2 j i 255; Ok (xmap, m)
  else Ok (xmap, st.2).

(** [Region::toMask]; both loops run to the bound inclusive
    ([i <= bound_max.y()], [j <= bound_max.x()]). *)
Definition toMask (init : Z → Z) (r : Region) : result Mat :=
  m ← Mat_zeros (py (bound_max r) - 1) (px (bound_max r) - 1);
  xmap ← xmap_new init (px (bound_max r) - px (bound_min r));
  st ← for_rangeM (py (bound_min r)) (py (bound_max r) + 1)
         (λ i st, for_rangeM (px (bound_min r)) (px (bound_max r) + 1)
                    (toMask_cell r i) st)
         (xmap, m);
  Ok st.2.

End WithOrder.

(** One total order on points, the spec's example: rows first, then
    columns. *)
Definition RPoint_lt_rowmajor (a b : RPoint) : bool :=
  (py a <? py b) || ((py a =? py b) && (px a <? px b)).

(** The other lexicographic order: columns first, then rows. *)
Definition RPoint_lt_colmajor (a b : RPoint) : bool :=
  (px a <? px b) || ((px a =? px b) && (py a <? py b)).


(** ** The mask-mode boundary as the specification words it *)

(** A boundary point is a set cell that is on the outer border of the mask
    or has an unset neighbour to the left, right, above or below; the
    enumeration is row by row, column by column, with the offset added. *)
Definition spec_edge (m : Mat) (i j : Z) : bool :=
  (i =? 0) || (j =? 0) || (i =? roi_height m - 1) || (j =? roi_width m - 1)
  || (cell m i (j - 1) =? 0) || (cell m i (j + 1) =? 0)
  || (cell m (i - 1) j =? 0) || (cell m (i + 1) j =? 0).

Definition spec_mask_points (m : Mat) : list RPoint :=
  i ← seqZ 0 (roi_height m);
  j ← seqZ 0 (roi_width m);
  if negb (cell m i j =? 0) && spec_edge m i j
  then [mkRPoint (j + roi_x m) (i + roi_y m)] else [].

(** Two points are 4-neighbours when they differ by one step along one
    axis. *)
Definition neighbour4 (a b : RPoint) : Prop :=
  Z.abs (px a - px b) + Z.abs (py a - py b) = 1.

(** Rows never decrease along the point sequence. *)
Definition row_le (a b : RPoint) : Prop := py a ≤ py b.

(** ** Auxiliary definitions for the statements *)

(** The three loops of rectangle mode, as the three runs of points they
    append. *)
Definition rect_top (m : Mat) : list RPoint :=
  (λ i, mkRPoint (roi_x m + i) (roi_y m)) <$> seqZ 0 (roi_width m).

Definition rect_sides (m : Mat) : list RPoint :=
  i ← seqZ 1 (roi_height m - 2);
  [mkRPoint (roi_x m) (roi_y m + i);
   mkRPoint (roi_x m + roi_width m - 1) (roi_y m + i)].

Definition rect_bottom (m : Mat) : list RPoint :=
  (λ i, mkRPoint (roi_x m + i) (roi_y m + roi_height m - 1))
    <$> seqZ 0 (roi_width m).

(** One round of probes at distance [i], and the exit test at [i]. *)
Definition interior_hit (r : Region) (p : RPoint) (i : Z) : bool :=
  inBoundary r (RPoint_add p (mkRPoint i 0))
  || inBoundary r (RPoint_add p (mkRPoint (- i) 0))
  || inBoundary r (RPoint_add p (mkRPoint 0 i))
  || inBoundary r (RPoint_add p (mkRPoint 0 (- i))).

Definition interior_exit (r : Region) (p : RPoint) (i : Z) : bool :=
  (px p - i <? px (bound_min r)) && (px p + i >? px (bound_max r))
  && (py p - i <? py (bound_min r)) && (py p + i >? py (bound_max r)).

(** The points that the mask loops append: for each row, for each column
    whose cell passes the test of the [if], the cell's position plus the
    offset. *)
Definition mask_row_stored (m : Mat) (i : Z) : list RPoint :=
  j ← seqZ 0 (roi_width m - 0);
  match mask_edge m i j with
  | Ok true => [mkRPoint (j + roi_x m) (i + roi_y m)]
  | _ => []
  end.

Definition mask_stored (m : Mat) : list RPoint :=
  seqZ 0 (roi_height m - 0) ≫= mask_row_stored m.

(** The two bounds enclose every stored point, in both axes. *)
Definition box_encloses (r : Region) : Prop :=
  ∀ p, p ∈ points r →
       px (bound_min r) ≤ px p ≤ px (bound_max r)
       ∧ py (bound_min r) ≤ py p ≤ py (bound_max r).

(** A 12×3 mask at offset (0,0): the middle row has the cells of columns
    0, 1, 2 and 11 set, the rows above and below are unset. *)
Definition edge_mask : Mat :=
  mkMat 12 3 0 0
    [ [0; 0; 0; 0; 0; 0; 0; 0; 0; 0; 0; 0];
      [255; 255; 255; 0; 0; 0; 0; 0; 0; 0; 0; 255];
      [0; 0; 0; 0; 0; 0; 0; 0; 0; 0; 0; 0] ].

(** * Properties *)

(** A decidable closed statement, settled by evaluation. *)
Ltac by_evaluation := apply (bool_decide_unpack _); by vm_compute.

(** ** Points *)

Lemma RPoint_eqb_eq a b : RPoint_eqb a b = true ↔ a = b.
Proof.
  destruct a as [ax ay], b as [bx b_y]; unfold RPoint_eqb; simpl.
  rewrite andb_true_iff, !Z.eqb_eq. split.
  - intros [-> ->]; reflexivity.
  - intros [= -> ->]; done.
Qed.

Lemma RPoint_eqb_refl a : RPoint_eqb a a = true.
Proof. by apply RPoint_eqb_eq. Qed.

(** ** Loops *)

Lemma foldl_append {A : Type} (f : Z → list A) (idx : list Z) (acc : list A) :
  foldl (λ st i, st ++ f i) acc idx = acc ++ (idx ≫= f).
Proof.
  revert acc; induction idx as [|i idx IH]; intros acc; csimpl.
  - by rewrite app_nil_r.
  - by rewrite IH, app_assoc.
Qed.

Lemma foldl_append_pair {A : Type} (f g : Z → A) (idx : list Z)
  (acc : list A) :
  foldl (λ st i, (st ++ [f i]) ++ [g i]) acc idx
  = acc ++ (idx ≫= λ i, [f i; g i]).
Proof.
  revert acc; induction idx as [|i idx IH]; intros acc; csimpl.
  - by rewrite app_nil_r.
  - by rewrite IH, <- !app_assoc.
Qed.

Lemma for_range_append {A : Type} (f : Z → list A) lo hi (acc : list A) :
  for_range lo hi (λ i st, st ++ f i) acc = acc ++ (seqZ lo (hi - lo) ≫= f).
Proof. apply foldl_append. Qed.

Lemma for_each_app {S : Type} (l1 l2 : list Z) (body : Z → S → result S) st :
  for_each (l1 ++ l2) body st = st' ← for_each l1 body st; for_each l2 body st'.
Proof.
  revert st; induction l1 as [|i l1 IH]; intros st; simpl; [done|].
  destruct (body i st) as [st'|f]; simpl; [apply IH | done].
Qed.

(** An invariant of the body is an invariant of the loop. *)
Lemma for_each_inv {S : Type} (P : S → Prop) (body : Z → S → result S) idx :
  (∀ i st st', P st → body i st = Ok st' → P st') →
  ∀ st st', P st → for_each idx body st = Ok st' → P st'.
Proof.
  intros Hbody; induction idx as [|i idx IH]; intros st st' HP; simpl.
  - by intros [= <-].
  - destruct (body i st) as [st1|f] eqn:E; simpl; [|done].
    intros H. eapply IH; [|exact H]. eauto.
Qed.

Lemma length_bind_const {A : Type} (f : Z → list A) (k : nat) (idx : list Z) :
  (∀ i, length (f i) = k) → length (idx ≫= f) = (k * length idx)%nat.
Proof.
  intros Hf; induction idx as [|i idx IH]; csimpl; [lia|].
  rewrite length_app, Hf, IH. lia.
Qed.

(** ** Rectangle mode *)

Lemma bind_singleton_fmap {A : Type} (f : Z → A) (idx : list Z) :
  (idx ≫= λ i, [f i]) = f <$> idx.
Proof. induction idx as [|i idx IH]; csimpl; [done | by rewrite IH]. Qed.

Lemma rect_points_runs (m : Mat) :
  rect_points m = rect_top m ++ rect_sides m ++ rect_bottom m.
Proof.
  unfold rect_points, rect_top, rect_sides, rect_bottom.
  rewrite (for_range_append (λ i, [mkRPoint (roi_x m + i) (roi_y m)])).
  rewrite (for_range_append
             (λ i, [mkRPoint (roi_x m + i) (roi_y m + roi_height m - 1)])).
  rewrite !bind_singleton_fmap, !Z.sub_0_r. simpl.
  fold (rect_top m).
  rewrite (app_assoc (rect_top m)). f_equal.
  unfold for_range. fold (rect_top m).
  rewrite foldl_append_pair.
  by replace (roi_height m - 1 - 1) with (roi_height m - 2) by lia.
Qed.

Lemma same_row_sorted (y : Z) (l : list RPoint) :
  Forall (λ q, py q = y) l → StronglySorted row_le l.
Proof.
  induction 1 as [|q l Hq Hl IH]; constructor; [done|].
  apply Forall_forall. intros q' Hq'.
  rewrite Forall_forall in Hl. apply Hl in Hq'. unfold row_le. lia.
Qed.

Lemma bind_rows_sorted (f : Z → list RPoint) (y : Z) :
  (∀ i q, q ∈ f i → py q = y + i) →
  ∀ (n : nat) lo, StronglySorted row_le (seqZ lo (Z.of_nat n) ≫= f).
Proof.
  intros Hf; induction n as [|n IH]; intros lo.
  - rewrite seqZ_nil by lia. constructor.
  - rewrite seqZ_cons by lia. rewrite bind_cons.
    replace (Z.pred (Z.of_nat (S n))) with (Z.of_nat n) by lia.
    apply StronglySorted_app_2; [| |apply IH].
    + intros q1 q2 H1 H2.
      apply list_elem_of_bind in H2 as (i & Hq & Hi).
      apply elem_of_seqZ in Hi. apply Hf in H1, Hq. unfold row_le. lia.
    + apply (same_row_sorted (y + lo)), Forall_forall. intros q Hq.
      by apply Hf.
Qed.

Lemma rect_top_row (m : Mat) q : q ∈ rect_top m → py q = roi_y m.
Proof.
  unfold rect_top. intros (i & -> & _)%list_elem_of_fmap. done.
Qed.

Lemma rect_bottom_row (m : Mat) q :
  q ∈ rect_bottom m → py q = roi_y m + roi_height m - 1.
Proof.
  unfold rect_bottom. intros (i & -> & _)%list_elem_of_fmap. done.
Qed.

Lemma rect_sides_row (m : Mat) q :
  q ∈ rect_sides m → roi_y m + 1 ≤ py q ≤ roi_y m + roi_height m - 2.
Proof.
  unfold rect_sides. intros (i & Hq & Hi)%list_elem_of_bind.
  apply elem_of_seqZ in Hi.
  apply elem_of_cons in Hq as [->|Hq]; simpl; [lia|].
  apply list_elem_of_singleton in Hq as ->; simpl; lia.
Qed.

Lemma rect_points_sorted (m : Mat) :
  2 ≤ roi_height m → StronglySorted row_le (rect_points m).
Proof.
  intros Hh. rewrite rect_points_runs.
  apply StronglySorted_app_2; [| |apply StronglySorted_app_2].
  - intros q1 q2 H1 H2. apply rect_top_row in H1. unfold row_le.
    apply elem_of_app in H2 as [H2|H2].
    + apply rect_sides_row in H2. lia.
    + apply rect_bottom_row in H2. lia.
  - apply (same_row_sorted (roi_y m)), Forall_forall, rect_top_row.
  - intros q1 q2 H1 H2. apply rect_sides_row in H1.
    apply rect_bottom_row in H2. unfold row_le. lia.
  - unfold rect_sides.
    replace (roi_height m - 2) with (Z.of_nat (Z.to_nat (roi_height m - 2)))
      by lia.
    apply (bind_rows_sorted _ (roi_y m)).
    intros i q Hq.
    apply elem_of_cons in Hq as [->|Hq]; [done|].
    by apply list_elem_of_singleton in Hq as ->.
  - apply (same_row_sorted (roi_y m + roi_height m - 1)), Forall_forall,
      rect_bottom_row.
Qed.

Lemma rect_points_length (m : Mat) :
  0 ≤ roi_width m → 2 ≤ roi_height m →
  Z.of_nat (length (rect_points m)) = 2 * roi_width m + 2 * roi_height m - 4.
Proof.
  intros Hw Hh. rewrite rect_points_runs.
  unfold rect_top, rect_sides, rect_bottom.
  rewrite !length_app, !length_fmap, (length_bind_const _ 2) by done.
  rewrite !length_seqZ. lia.
Qed.

(** C3. Rectangle-mode construction on a [w]×[h] extent with [w ≥ 2] and
    [h ≥ 2] succeeds with exactly [2w + 2h − 4] points: the top row from
    left to right, then the left and the right pixel of each inner row,
    then the bottom row from left to right, so rows never decrease;
    [bound_min] is the offset and [bound_max] is the offset plus [(w, h)].
    For the 5×4 extent at (0,0) these are the 14 listed points with bounds
    (0,0) and (5,4). *)
Theorem rect_construction (m : Mat)
  (Hw : 2 ≤ roi_width m) (Hh : 2 ≤ roi_height m) :
  ∃ r, Region_of_Mat m false = Ok r
    ∧ Z.of_nat (length (points r)) = 2 * roi_width m + 2 * roi_height m - 4
    ∧ points r = rect_top m ++ rect_sides m ++ rect_bottom m
    ∧ StronglySorted row_le (points r)
    ∧ bound_min r = mkRPoint (roi_x m) (roi_y m)
    ∧ bound_max r = mkRPoint (roi_x m + roi_width m) (roi_y m + roi_height m)
    ∧ (roi_width m = 5 → roi_height m = 4 → roi_x m = 0 → roi_y m = 0 →
       points r =
         [mkRPoint 0 0; mkRPoint 1 0; mkRPoint 2 0; mkRPoint 3 0;
          mkRPoint 4 0;
          mkRPoint 0 1; mkRPoint 4 1;
          mkRPoint 0 2; mkRPoint 4 2;
          mkRPoint 0 3; mkRPoint 1 3; mkRPoint 2 3; mkRPoint 3 3;
          mkRPoint 4 3]
       ∧ length (points r) = 14%nat
       ∧ bound_min r = mkRPoint 0 0 ∧ bound_max r = mkRPoint 5 4).
Proof.
  exists (Region_rect m). split; [done|]. simpl.
  split; [apply rect_points_length; lia|].
  split; [apply rect_points_runs|].
  split; [by apply rect_points_sorted|].
  split; [done|]. split; [done|].
  intros E1 E2 E3 E4. rewrite rect_points_runs.
  unfold rect_top, rect_sides, rect_bottom. rewrite E1, E2, E3, E4.
  by vm_compute.
Qed.

Lemma rect_construction_witness :
  ∃ r, Region_of_Mat (Mat_fill 5 4 0 0 0) false = Ok r
    ∧ points r =
        [mkRPoint 0 0; mkRPoint 1 0; mkRPoint 2 0; mkRPoint 3 0;
         mkRPoint 4 0;
         mkRPoint 0 1; mkRPoint 4 1;
         mkRPoint 0 2; mkRPoint 4 2;
         mkRPoint 0 3; mkRPoint 1 3; mkRPoint 2 3; mkRPoint 3 3;
         mkRPoint 4 3]
    ∧ bound_min r = mkRPoint 0 0 ∧ bound_max r = mkRPoint 5 4.
Proof.
  destruct (rect_construction (Mat_fill 5 4 0 0 0)) as (r & Hr & _ & _ & _ & _ & _ & Hex);
    [simpl; lia | simpl; lia |].
  exists r. split; [exact Hr|].
  destruct Hex as (Hp & _ & Hmin & Hmax); [reflexivity..|].
  by rewrite Hp, Hmin, Hmax.
Defined.

(** ** The row index *)

Lemma buildYMap_loop_dom (rest : list RPoint) :
  ∀ i current (ym : gmap Z Z),
    current ∈ dom ym →
    dom (buildYMap_loop i current ym rest)
    = dom ym ∪ list_to_set (py <$> rest).
Proof.
  induction rest as [|q rest IH]; intros i current ym Hcur; simpl.
  - set_solver.
  - destruct (Z.eqb_spec current (py q)) as [E|E]; simpl.
    + rewrite IH by done. set_solver.
    + rewrite IH by set_solver. set_solver.
Qed.

(** The keys of the row index are the rows that have a stored point. *)
Lemma buildYMap_dom (pts : list RPoint) :
  dom (buildYMap pts) = list_to_set (py <$> pts).
Proof.
  destruct pts as [|p0 pts]; [set_solver|].
  unfold buildYMap. rewrite buildYMap_loop_dom by set_solver. set_solver.
Qed.

Lemma buildYMap_loop_range (n : Z) (rest : list RPoint) :
  ∀ i current (ym : gmap Z Z),
    0 ≤ i → i + Z.of_nat (length rest) = n →
    (∀ y v, ym !! y = Some v → 0 ≤ v < n) →
    ∀ y v, buildYMap_loop i current ym rest !! y = Some v → 0 ≤ v < n.
Proof.
  induction rest as [|q rest IH]; intros i current ym Hi Hn Hym; simpl.
  - exact Hym.
  - simpl in Hn. destruct (negb (current =? py q)).
    + apply IH; [lia | lia |]. intros y v.
      rewrite lookup_insert. case_decide.
      * intros [= <-]. lia.
      * apply Hym.
    + apply IH; [lia | lia | exact Hym].
Qed.

(** The values of the row index are positions of the point sequence. *)
Lemma buildYMap_lookup_range (pts : list RPoint) (y v : Z) :
  buildYMap pts !! y = Some v → 0 ≤ v < Z.of_nat (length pts).
Proof.
  destruct pts as [|p0 pts]; [done|]. unfold buildYMap.
  apply buildYMap_loop_range; [lia | lia |].
  intros y' v'. rewrite lookup_insert. case_decide; [|done].
  intros [= <-]. simpl. lia.
Qed.

Lemma buildYMap_lookup_None (pts : list RPoint) (y : Z) :
  buildYMap pts !! y = None ↔ ∀ q, q ∈ pts → py q ≠ y.
Proof.
  rewrite <- not_elem_of_dom, buildYMap_dom, elem_of_list_to_set,
    list_elem_of_fmap.
  split.
  - intros H q Hq E. apply H. by exists q.
  - intros H (q & E & Hq). by apply (H q).
Qed.

(** ** Boundary membership *)

Lemma inBoundary_loop_off_row p i rest :
  i ≠ py p → inBoundary_loop p i rest = false.
Proof.
  intros Hne. destruct rest as [|q rest]; simpl; [done|].
  by apply Z.eqb_neq in Hne as ->.
Qed.

(** The loop looks at one element only: the one at the start index, and
    only when that index equals [p.y()]. *)
Lemma inBoundary_loop_true p i rest :
  inBoundary_loop p i rest = true ↔ i = py p ∧ head rest = Some p.
Proof.
  destruct rest as [|q rest]; simpl.
  - split; [done | by intros [_ ?]].
  - destruct (Z.eqb_spec i (py p)) as [->|Hne].
    + destruct (RPoint_eqb q p) eqn:E.
      * apply RPoint_eqb_eq in E as ->. done.
      * rewrite inBoundary_loop_off_row by lia. split; [done|].
        intros [_ [= ->]]. by rewrite RPoint_eqb_refl in E.
    + split; [done | by intros [? _]].
Qed.

Lemma inBoundary_true (r : Region) (p : RPoint) :
  inBoundary r p = true ↔
  ycoords r !! py p = Some (py p) ∧ points r !! Z.to_nat (py p) = Some p.
Proof.
  unfold inBoundary. destruct (ycoords r !! py p) as [start|].
  - rewrite inBoundary_loop_true, head_lookup, lookup_drop, Nat.add_0_r.
    split.
    + intros [-> H]. done.
    + intros [[= ->] H]. done.
  - split; [done | by intros [? _]].
Qed.

(** What [inBoundary] accepts is a stored point. *)
Lemma inBoundary_sound (r : Region) (p : RPoint) :
  inBoundary r p = true → p ∈ points r.
Proof.
  intros [_ H]%inBoundary_true. by eapply list_elem_of_lookup_2.
Qed.

(** C1. [inBoundary] does not recognise every stored point: in the 5×4
    rectangle at (0,0) the point (1,0) is stored, its row 0 has the
    row-index entry 0, and the scan stops after the first point of the run
    because it compares the index, not the row of the point at that index,
    with [p.y()]; [inBoundary] answers false.  Of the 14 stored points only
    (0,0) is recognised. *)
Theorem inBoundary_misses_stored_point :
  let r := Region_rect (Mat_fill 5 4 0 0 0) in
  mkRPoint 1 0 ∈ points r
  ∧ ycoords r !! 0 = Some 0
  ∧ inBoundary r (mkRPoint 1 0) = false
  ∧ filter (λ q, inBoundary r q = true) (points r) = [mkRPoint 0 0].
Proof.
  intros r. split; [|by vm_compute].
  by_evaluation.
Qed.

(** ** The interior test *)

(** The loop of [interior] ends: once [i] is beyond [interior_reach] the
    four exit tests hold together. *)
Lemma interior_loop_total (r : Region) (p : RPoint) (fuel : nat) :
  ∀ i x_plus x_minus y_plus y_minus,
    (Z.to_nat (interior_reach r p - i + 1) < fuel)%nat →
    is_Some (interior_loop r p fuel i x_plus x_minus y_plus y_minus).
Proof.
  induction fuel as [|fuel IH]; intros i xp xm yp ym Hfuel; [lia|].
  simpl.
  destruct (negb xp && negb xm && negb yp && negb ym); [|by eexists].
  destruct ((px p - i <? px (bound_min r)) && (px p + i >? px (bound_max r))
            && (py p - i <? py (bound_min r))
            && (py p + i >? py (bound_max r))) eqn:Hexit; [by eexists|].
  apply IH.
  rewrite !andb_false_iff, !Z.ltb_ge, !Z.gtb_ltb, !Z.ltb_ge in Hexit.
  unfold interior_reach in *. lia.
Qed.

(** More fuel does not change a result. *)
Lemma interior_loop_fuel_mono (r : Region) (p : RPoint) (fuel : nat) :
  ∀ fuel' i x_plus x_minus y_plus y_minus b,
    (fuel ≤ fuel')%nat →
    interior_loop r p fuel i x_plus x_minus y_plus y_minus = Some b →
    interior_loop r p fuel' i x_plus x_minus y_plus y_minus = Some b.
Proof.
  induction fuel as [|fuel IH]; intros fuel' i xp xm yp ym b Hle; simpl.
  - destruct (negb xp && negb xm && negb yp && negb ym) eqn:Hc; [done|].
    intros [= <-]. destruct fuel'; simpl; by rewrite Hc.
  - destruct fuel' as [|fuel']; [lia|]. simpl.
    destruct (negb xp && negb xm && negb yp && negb ym); [|done].
    destruct (_ && _ && _ && _); [done|].
    apply IH. lia.
Qed.

(** [interior] is the result of the loop, whatever fuel produced it. *)
Lemma interior_loop_result (r : Region) (p : RPoint) (fuel : nat) (b : bool) :
  interior_loop r p fuel 1 false false false false = Some b →
  interior r p = b.
Proof.
  intros H. unfold interior.
  destruct (interior_loop_total r p (S (Z.to_nat (interior_reach r p))) 1
              false false false false) as [b' Hb']; [lia|].
  rewrite Hb'. simpl.
  destruct (Nat.le_ge_cases fuel (S (Z.to_nat (interior_reach r p)))) as [L|L].
  - eapply interior_loop_fuel_mono in H; [|exact L]. congruence.
  - eapply interior_loop_fuel_mono in Hb'; [|exact L]. congruence.
Qed.

Lemma interior_loop_resolved (r : Region) (p : RPoint) (fuel : nat) (i : Z)
  (x_plus x_minus y_plus y_minus : bool) :
  x_plus || x_minus || y_plus || y_minus = true →
  interior_loop r p fuel i x_plus x_minus y_plus y_minus = Some true.
Proof.
  intros H.
  destruct fuel, x_plus, x_minus, y_plus, y_minus; simpl in *; done.
Qed.

(** One iteration of the loop, entered with no direction resolved. *)
Lemma interior_loop_step (r : Region) (p : RPoint) (fuel : nat) (i : Z) :
  interior_loop r p (S fuel) i false false false false
  = if interior_exit r p i then Some false
    else if interior_hit r p i then Some true
    else interior_loop r p fuel (i + 1) false false false false.
Proof.
  cbn [interior_loop negb andb]. fold (interior_exit r p i).
  destruct (interior_exit r p i); [done|].
  unfold interior_hit.
  destruct (inBoundary r (RPoint_add p (mkRPoint i 0))),
           (inBoundary r (RPoint_add p (mkRPoint (- i) 0))),
           (inBoundary r (RPoint_add p (mkRPoint 0 i))),
           (inBoundary r (RPoint_add p (mkRPoint 0 (- i))));
    cbn [orb andb negb]; try done; by apply interior_loop_resolved.
Qed.

Lemma interior_exit_false_reach (r : Region) (p : RPoint) (i : Z) :
  interior_exit r p i = false → i ≤ interior_reach r p.
Proof.
  unfold interior_exit, interior_reach.
  rewrite !andb_false_iff, !Z.ltb_ge, !Z.gtb_ltb, !Z.ltb_ge. lia.
Qed.

Lemma interior_loop_true_iff (r : Region) (p : RPoint) (fuel : nat) :
  ∀ i, interior_loop r p fuel i false false false false = Some true ↔
       ∃ j, i ≤ j < i + Z.of_nat fuel ∧ interior_hit r p j = true
            ∧ ∀ k, i ≤ k ≤ j →
                   interior_exit r p k = false
                   ∧ (k < j → interior_hit r p k = false).
Proof.
  induction fuel as [|fuel IH]; intros i.
  - simpl. split; [done|]. intros (j & Hj & _). lia.
  - rewrite interior_loop_step.
    destruct (interior_exit r p i) eqn:Hexit.
    { split; [done|]. intros (j & Hj & _ & Hk).
      destruct (Hk i) as [Hk' _]; [lia|]. congruence. }
    destruct (interior_hit r p i) eqn:Hhit.
    { split; [|done]. intros _. exists i.
      split; [lia|]. split; [done|].
      intros k Hk. assert (k = i) as -> by lia. split; [done|lia]. }
    rewrite IH. split.
    + intros (j & Hj & Hhj & Hk). exists j.
      split; [lia|]. split; [done|].
      intros k Hki. destruct (decide (k = i)) as [->|Hne]; [done|].
      apply Hk. lia.
    + intros (j & Hj & Hhj & Hk). exists j.
      assert (j ≠ i) by congruence.
      split; [lia|]. split; [done|].
      intros k Hki. apply Hk. lia.
Qed.

(** What [interior] computes: it answers true exactly when at some distance
    [j] at least one of the four probes hits, no probe hit at a smaller
    distance, and up to [j] the four exit tests never held together. *)
Lemma interior_true_iff (r : Region) (p : RPoint) :
  interior r p = true ↔
  ∃ j, 1 ≤ j ∧ interior_hit r p j = true
       ∧ ∀ k, 1 ≤ k ≤ j →
              interior_exit r p k = false
              ∧ (k < j → interior_hit r p k = false).
Proof.
  unfold interior.
  destruct (interior_loop_total r p (S (Z.to_nat (interior_reach r p))) 1
              false false false false) as [b Hb]; [lia|].
  rewrite Hb. simpl. split.
  - intros ->. apply interior_loop_true_iff in Hb as (j & Hj & H).
    exists j. split; [lia | exact H].
  - intros (j & Hj & Hhit & Hk).
    assert (interior_loop r p (S (Z.to_nat (interior_reach r p))) 1
              false false false false = Some true) as Ht; [|congruence].
    apply interior_loop_true_iff. exists j. split; [|done].
    destruct (Hk j) as [Hexit _]; [lia|].
    apply interior_exit_false_reach in Hexit. lia.
Qed.

Lemma rect54_rows_nonneg q :
  q ∈ points (Region_rect (Mat_fill 5 4 0 0 0)) → 0 ≤ py q.
Proof.
  revert q. apply Forall_forall.
  by_evaluation.
Qed.

(** C2. [interior] answers true as soon as one direction has hit: the loop
    runs while no direction has resolved, not until all four have.  In the
    5×4 rectangle at (0,0), for p = (2,0) the probe to the left reaches
    (0,0) at i = 2 and [interior] answers true, although no probe upwards,
    (2,-i), is a stored point or is accepted by [inBoundary] for any i. *)
Theorem interior_true_on_one_hit :
  let r := Region_rect (Mat_fill 5 4 0 0 0) in
  let p := mkRPoint 2 0 in
  interior r p = true
  ∧ interior_loop r p 2 1 false false false false = Some true
  ∧ inBoundary r (RPoint_add p (mkRPoint (-2) 0)) = true
  ∧ (∀ i, 1 ≤ i → RPoint_add p (mkRPoint 0 (- i)) ∉ points r)
  ∧ (∀ i, 1 ≤ i → inBoundary r (RPoint_add p (mkRPoint 0 (- i))) = false).
Proof.
  intros r p.
  assert (Hup : ∀ i, 1 ≤ i → RPoint_add p (mkRPoint 0 (- i)) ∉ points r).
  { intros i Hi Hin. apply rect54_rows_nonneg in Hin. simpl in Hin. lia. }
  split; [by vm_compute|]. split; [by vm_compute|]. split; [by vm_compute|].
  split; [exact Hup|].
  intros i Hi. apply not_true_is_false. intros H%inBoundary_sound.
  by apply (Hup i).
Qed.

(** ** Containment *)

(** The first test of [contains] answers false for a point below
    [bound_min] or above [bound_max] in the order on points. *)
Lemma contains_rejected_by_order (RPoint_lt : RPoint → RPoint → bool)
  (r : Region) (p : RPoint) :
  RPoint_lt p (bound_min r) = true ∨ RPoint_lt (bound_max r) p = true →
  contains RPoint_lt r p = false.
Proof.
  unfold contains. intros [-> | ->]; [done|].
  by rewrite orb_true_r.
Qed.

(** C5. [contains] answers true for points outside the bounding box.  The
    5×4 rectangle at (0,0) has the bounds (0,0) and (5,4), which enclose
    its points.  The point (10,0) lies to the right of the box and (0,10)
    below it.  Neither is stored, but [interior] answers true for both, on
    the single hit of the probe that reaches (0,0) at distance 10.  So
    [contains] answers true for either point unless the first test, which
    compares points and not coordinates, rejects it: with rows compared
    first (10,0) is contained, with columns compared first (0,10) is. *)
Theorem contains_true_outside_box :
  let r := Region_rect (Mat_fill 5 4 0 0 0) in
  bound_min r = mkRPoint 0 0 ∧ bound_max r = mkRPoint 5 4
  ∧ box_encloses r
  ∧ (px (bound_max r) < px (mkRPoint 10 0)
     ∧ contains RPoint_lt_rowmajor r (mkRPoint 10 0) = true)
  ∧ (py (bound_max r) < py (mkRPoint 0 10)
     ∧ contains RPoint_lt_colmajor r (mkRPoint 0 10) = true)
  ∧ (inBoundary r (mkRPoint 10 0) = false
     ∧ interior r (mkRPoint 10 0) = true
     ∧ inBoundary r (mkRPoint 0 10) = false
     ∧ interior r (mkRPoint 0 10) = true)
  ∧ (∀ RPoint_lt p, p = mkRPoint 10 0 ∨ p = mkRPoint 0 10 →
       contains RPoint_lt r p
       = negb (RPoint_lt p (bound_min r) || RPoint_lt (bound_max r) p)).
Proof.
  intros r. split; [done|]. split; [done|]. split.
  { intros p Hp. revert p Hp. apply Forall_forall.
    apply (bool_decide_unpack _). by vm_compute. }
  split; [split; [simpl; lia | by vm_compute]|].
  split; [split; [simpl; lia | by vm_compute]|].
  split; [by vm_compute|].
  intros lt p Hp. unfold contains.
  assert (interior r p = true) as ->.
  { destruct Hp as [-> | ->]; by vm_compute. }
  rewrite orb_true_r. by destruct (_ || _).
Qed.

(** The interval of the order is not the box of the plane: with rows
    compared first, (10,0) lies between the bounds (0,0) and (5,4) of the
    5×4 rectangle, to the right of its box, and passes the first test. *)
Lemma contains_rowmajor_beside_box :
  let r := Region_rect (Mat_fill 5 4 0 0 0) in
  RPoint_lt_rowmajor (mkRPoint 10 0) (bound_min r) = false
  ∧ RPoint_lt_rowmajor (bound_max r) (mkRPoint 10 0) = false
  ∧ contains RPoint_lt_rowmajor r (mkRPoint 10 0) = true.
Proof. by vm_compute. Qed.

(** Inside the interval of the order, [contains] is the disjunction of the
    two tests. *)
Lemma contains_inside (RPoint_lt : RPoint → RPoint → bool)
  (r : Region) (p : RPoint) :
  RPoint_lt p (bound_min r) = false → RPoint_lt (bound_max r) p = false →
  contains RPoint_lt r p = inBoundary r p || interior r p.
Proof. unfold contains. by intros -> ->. Qed.

(** ** Mask mode *)

Lemma for_each_skip {S : Type} (body : Z → S → result S) (idx : list Z) st :
  (∀ i, i ∈ idx → body i st = Ok st) → for_each idx body st = Ok st.
Proof.
  induction idx as [|i idx IH]; intros H; simpl; [done|].
  rewrite H by left. simpl. apply IH. intros j Hj. apply H. by right.
Qed.

Lemma mask_cell_unset (m : Mat) (i j : Z) (pts : list RPoint) :
  cell m i j = 0 → mask_cell m i j pts = Ok pts.
Proof. intros H. unfold mask_cell, mask_edge. by rewrite H. Qed.

Lemma mask_points_unset (m : Mat) :
  (∀ i j, cell m i j = 0) → mask_points m = Ok [].
Proof.
  intros H. unfold mask_points, for_rangeM.
  apply for_each_skip. intros i _.
  apply for_each_skip. intros j _. by apply mask_cell_unset.
Qed.

(** C10. Mask-mode construction takes [first()] and [last()] of the
    collected points without a test.  When the collection [pts] is not
    empty these are its first and last element and the Region is built;
    when it is empty, [first()] is taken of an empty sequence.  A mask with
    no set cell collects no point. *)
Theorem mask_first_last_precondition (m : Mat) (pts : list RPoint)
  (Hpts : mask_points m = Ok pts) :
  (pts ≠ [] →
     ∃ r, Region_of_Mat m true = Ok r ∧ points r = pts
          ∧ head pts = Some (bound_min r)
          ∧ list.last pts = Some (bound_max r))
  ∧ (pts = [] → Region_of_Mat m true = Fault EmptyFirst)
  ∧ ((∀ i j, cell m i j = 0) → pts = []).
Proof.
  unfold Region_of_Mat, Region_mask. rewrite Hpts. simpl.
  split; [|split].
  - intros Hne. unfold first, last.
    destruct (head pts) as [p0|] eqn:Hhd.
    2: { by apply head_None in Hhd. }
    destruct (list.last pts) as [p1|] eqn:Hlast.
    2: { by apply last_None in Hlast. }
    simpl. by eexists.
  - by intros ->.
  - intros Hunset. apply mask_points_unset in Hunset. congruence.
Qed.

Lemma mask_first_last_precondition_witness :
  Region_of_Mat (Mat_fill 2 2 0 0 0) true = Fault EmptyFirst.
Proof.
  apply (mask_first_last_precondition (Mat_fill 2 2 0 0 0) []);
    reflexivity.
Defined.

Lemma Mat_fill_wf (w h x y v : Z) :
  0 ≤ w → 0 ≤ h → 0 ≤ v < 256 → Mat_wf (Mat_fill w h x y v).
Proof.
  intros Hw Hh Hv. unfold Mat_wf, Mat_fill; simpl.
  split; [done|]. split; [done|].
  split; [rewrite length_replicate; lia|].
  apply Forall_replicate. split; [rewrite length_replicate; lia|].
  by apply Forall_replicate.
Qed.

Lemma edge_mask_wf : Mat_wf edge_mask.
Proof.
  unfold Mat_wf, edge_mask; simpl.
  repeat split; try lia; repeat constructor; lia.
Qed.

(** C4. Mask-mode construction does not store every set edge cell.  In
    [edge_mask] the cell of row 1, column 1 is set and the cells above and
    below it are unset, so it is an edge cell and the boundary of the
    spec's words holds (1,1).  The constructor tests
    [m.at<int>(j,i-1)] and [m.at<int>(j,i+1)], with row and column swapped
    and four cells read at once, finds both nonzero inside row 1, and does
    not store (1,1).  The bounds are the first and the last stored
    point. *)
Theorem mask_construction_misses_edge_cell :
  Mat_wf edge_mask
  ∧ cell edge_mask 1 1 = 255
  ∧ cell edge_mask 0 1 = 0 ∧ cell edge_mask 2 1 = 0
  ∧ spec_mask_points edge_mask
    = [mkRPoint 0 1; mkRPoint 1 1; mkRPoint 2 1; mkRPoint 11 1]
  ∧ mask_edge edge_mask 1 1 = Ok false
  ∧ (∃ r, Region_of_Mat edge_mask true = Ok r
       ∧ points r = [mkRPoint 0 1; mkRPoint 2 1; mkRPoint 11 1]
       ∧ (mkRPoint 1 1 ∉ points r)
       ∧ bound_min r = mkRPoint 0 1 ∧ bound_max r = mkRPoint 11 1).
Proof.
  split; [exact edge_mask_wf|].
  do 5 (split; [by vm_compute|]).
  eexists. split; [by vm_compute|]. simpl.
  split; [done|]. split; [|done].
  by_evaluation.
Qed.

(** ** Adjacency *)

(** With the call resolved to the defined [adjacentPoint] on the region
    itself, [adjacentTo] uses of [other] its two bounds only. *)
Lemma adjacentTo_bounds_only (r o1 o2 : Region) :
  bound_min o1 = bound_min o2 → bound_max o1 = bound_max o2 →
  adjacentTo adjacentPoint_on_self r o1 = adjacentTo adjacentPoint_on_self r o2.
Proof. unfold adjacentTo. by intros -> ->. Qed.

(** No point is accepted by [inBoundary] when none of the stored points
    is. *)
Lemma inBoundary_none_accepted (r : Region) :
  forallb (λ q, negb (inBoundary r q)) (points r) = true →
  ∀ p, inBoundary r p = false.
Proof.
  intros Hall p. apply not_true_is_false. intros Hin.
  assert (p ∈ points r) as Hp by by apply inBoundary_sound.
  rewrite forallb_forall in Hall.
  apply list_elem_of_In, Hall in Hp. by rewrite Hin in Hp.
Qed.

(** C6. [adjacentTo] misses regions that touch.  The rectangle-mode regions
    of the 5×4 extents at (0,1) and at (1,1) hold the points (0,1) and
    (1,1), which are 4-neighbours, and the bounding-box test does not
    reject them.  [inBoundary] accepts no point at all in either region,
    since in neither does a row index entry equal its row, so
    [adjacentPoint] answers false on either for every point and
    [adjacentTo] answers false, whether the call probes the region itself
    or [other]. *)
Theorem adjacentTo_misses_touching_regions :
  let a := Region_rect (Mat_fill 5 4 0 1 0) in
  let b := Region_rect (Mat_fill 5 4 1 1 0) in
  mkRPoint 0 1 ∈ points a ∧ mkRPoint 1 1 ∈ points b
  ∧ neighbour4 (mkRPoint 0 1) (mkRPoint 1 1)
  ∧ (∀ p, inBoundary a p = false ∧ inBoundary b p = false)
  ∧ (∀ p, adjacentPoint a p = false ∧ adjacentPoint b p = false)
  ∧ adjacentTo adjacentPoint_on_self a b = false
  ∧ adjacentTo adjacentPoint_on_other a b = false.
Proof.
  intros a b.
  assert (∀ p, inBoundary a p = false ∧ inBoundary b p = false) as Hnone.
  { intros p. split; apply inBoundary_none_accepted; by vm_compute. }
  split; [by_evaluation|]. split; [by_evaluation|].
  split; [by vm_compute|]. split; [exact Hnone|].
  split.
  - intros p. unfold adjacentPoint.
    split; [by rewrite !(proj1 (Hnone _)) | by rewrite !(proj2 (Hnone _))].
  - split; by vm_compute.
Qed.

(** C7. [adjacentTo] is not symmetric.  For the rectangle-mode regions [a]
    and [b] of the 5×4 extents at (0,0) and at (0,1), which touch, for one
    at (0,0) and (0,1), [a.adjacentTo(b)] is true and
    [b.adjacentTo(a)] is false when the call probes the region itself, and
    they are false and true when it probes [other]: [inBoundary] accepts
    (0,0) in [a] and nothing in [b]. *)
Theorem adjacentTo_not_symmetric :
  let a := Region_rect (Mat_fill 5 4 0 0 0) in
  let b := Region_rect (Mat_fill 5 4 0 1 0) in
  mkRPoint 0 0 ∈ points a ∧ mkRPoint 0 1 ∈ points b
  ∧ neighbour4 (mkRPoint 0 0) (mkRPoint 0 1)
  ∧ inBoundary a (mkRPoint 0 0) = true
  ∧ (∀ p, inBoundary b p = false)
  ∧ (adjacentTo adjacentPoint_on_self a b = true
     ∧ adjacentTo adjacentPoint_on_self b a = false)
  ∧ (adjacentTo adjacentPoint_on_other a b = false
     ∧ adjacentTo adjacentPoint_on_other b a = true).
Proof.
  intros a b.
  split; [by_evaluation|]. split; [by_evaluation|].
  split; [by vm_compute|]. split; [by vm_compute|].
  split; [apply inBoundary_none_accepted; by vm_compute|].
  split; split; by vm_compute.
Qed.

(** ** Rasterisation *)

Lemma lor_1_land_3 (v : Z) : (Z.land (Z.lor v 1) 3 =? 0) = false.
Proof.
  apply Z.eqb_neq. intros H.
  apply (f_equal (λ z, Z.testbit z 0)) in H.
  rewrite Z.land_spec, Z.lor_spec in H. simpl in H.
  by rewrite orb_true_r in H.
Qed.

Lemma xmap_get_outside (xmap : list Z) (j : Z) :
  j < 0 ∨ Z.of_nat (length xmap) ≤ j →
  xmap_get xmap j = Fault (XmapOutOfBounds j (Z.of_nat (length xmap))).
Proof.
  intros H. unfold xmap_get.
  destruct (Z.leb_spec 0 j), (Z.ltb_spec j (Z.of_nat (length xmap)));
    simpl; try done; lia.
Qed.

Lemma xmap_get_inside (xmap : list Z) (j : Z) :
  0 ≤ j < Z.of_nat (length xmap) →
  xmap_get xmap j = Ok (default 0 (xmap !! Z.to_nat j)).
Proof.
  intros H. unfold xmap_get.
  destruct (Z.leb_spec 0 j), (Z.ltb_spec j (Z.of_nat (length xmap)));
    simpl; try done; lia.
Qed.

Lemma xmap_set_inside (xmap : list Z) (j v : Z) :
  0 ≤ j < Z.of_nat (length xmap) →
  xmap_set xmap j v = Ok (<[Z.to_nat j := v]> xmap).
Proof.
  intros H. unfold xmap_set.
  destruct (Z.leb_spec 0 j), (Z.ltb_spec j (Z.of_nat (length xmap)));
    simpl; try done; lia.
Qed.

Lemma xmap_set_length (xmap xmap' : list Z) (j v : Z) :
  xmap_set xmap j v = Ok xmap' → length xmap' = length xmap.
Proof.
  unfold xmap_set. destruct (_ && _); [|done].
  intros [= <-]. apply length_insert.
Qed.

Section Rasterisation.

Variable RPoint_lt : RPoint → RPoint → bool.

(** Every run of the loop body starts with an access to [xmap[j]], with
    the column [j] itself as the index. *)
Lemma toMask_cell_outside (r : Region) (i j : Z) (st : list Z * Mat) :
  j < 0 ∨ Z.of_nat (length st.1) ≤ j →
  toMask_cell RPoint_lt r i j st
  = Fault (XmapOutOfBounds j (Z.of_nat (length st.1))).
Proof.
  intros H. unfold toMask_cell.
  rewrite (xmap_get_outside _ _ H). by destruct (inBoundary r _).
Qed.

(** On a boundary point the cell is written at row [j], column [i]. *)
Lemma toMask_cell_boundary (r : Region) (i j : Z) (st : list Z * Mat) :
  inBoundary r (mkRPoint j i) = true →
  0 ≤ j < Z.of_nat (length st.1) →
  toMask_cell RPoint_lt r i j st
  = (m ← Mat_set st.2 j i 255;
     Ok (<[Z.to_nat j := Z.lor (default 0 (st.1 !! Z.to_nat j)) 1]> st.1,
         m)).
Proof.
  intros Hb Hj. unfold toMask_cell. rewrite Hb.
  rewrite (xmap_get_inside _ _ Hj). simpl.
  rewrite (xmap_set_inside _ _ _ Hj). simpl.
  rewrite xmap_get_inside by (rewrite length_insert; lia). simpl.
  rewrite list_lookup_insert_eq by lia. simpl.
  by rewrite lor_1_land_3.
Qed.

Lemma toMask_cell_length (r : Region) (i j : Z) (st st' : list Z * Mat) :
  toMask_cell RPoint_lt r i j st = Ok st' → length st'.1 = length st.1.
Proof.
  unfold toMask_cell.
  destruct (inBoundary r _).
  - destruct (xmap_get st.1 j) as [v|]; simpl; [|done].
    destruct (xmap_set st.1 j _) as [x1|] eqn:E1; simpl; [|done].
    apply xmap_set_length in E1.
    destruct (xmap_get x1 j) as [v1|]; simpl; [|done].
    destruct (negb _); [destruct (Mat_set _ _ _ _); simpl; [|done]|];
      by intros [= <-].
  - destruct (xmap_get st.1 j) as [v|]; simpl; [|done].
    assert (∀ x0, (if negb (Z.land v 1 =? 0) && contains RPoint_lt r (mkRPoint j i)
                   then xmap_set st.1 j (Z.lor v 2) else Ok st.1) = Ok x0 →
                  length x0 = length st.1) as H0.
    { intros x0. destruct (_ && _); [apply xmap_set_length|].
      by intros [= <-]. }
    destruct (if negb (Z.land v 1 =? 0) && _ then _ else _) as [x0|];
      simpl; [|done].
    specialize (H0 x0 eq_refl).
    destruct (xmap_get x0 j) as [v0|]; simpl; [|done].
    destruct (xmap_set x0 j _) as [x1|] eqn:E1; simpl; [|done].
    apply xmap_set_length in E1.
    destruct (xmap_get x1 j) as [v1|]; simpl; [|done].
    destruct (negb _); [destruct (Mat_set _ _ _ _); simpl; [|done]|];
      intros [= <-]; simpl; congruence.
Qed.

(** A row of the sweep over a box whose columns are not negative cannot
    complete: at the last column, [bound_max.x()], the index is at least
    the size [bound_max.x() - bound_min.x()] of the array. *)
Lemma toMask_row_faults (r : Region) (i : Z) (st : list Z * Mat) :
  0 ≤ px (bound_min r) ≤ px (bound_max r) →
  Z.of_nat (length st.1) = px (bound_max r) - px (bound_min r) →
  ∃ f, for_rangeM (px (bound_min r)) (px (bound_max r) + 1)
         (toMask_cell RPoint_lt r i) st = Fault f.
Proof.
  intros Hx Hlen. unfold for_rangeM.
  replace (px (bound_max r) + 1 - px (bound_min r))
    with (Z.of_nat (S (Z.to_nat (px (bound_max r) - px (bound_min r)))))
    by lia.
  rewrite seqZ_S, for_each_app.
  destruct (for_each _ _ st) as [st'|f] eqn:E; simpl; [|by eexists].
  apply (for_each_inv (λ s, length s.1 = length st.1)) in E; [| |done].
  - rewrite toMask_cell_outside; [by eexists|]. lia.
  - intros j s s' Hs Hcell. apply toMask_cell_length in Hcell. congruence.
Qed.

(** [toMask] never returns a matrix for a region whose box has
    [0 ≤ bound_min.x ≤ bound_max.x] and [bound_min.y ≤ bound_max.y]. *)
Lemma toMask_faults (init : Z → Z) (r : Region) :
  0 ≤ px (bound_min r) ≤ px (bound_max r) →
  py (bound_min r) ≤ py (bound_max r) →
  ∃ f, toMask RPoint_lt init r = Fault f.
Proof.
  intros Hx Hy. unfold toMask.
  destruct (Mat_zeros _ _) as [m|f]; simpl; [|by eexists].
  unfold xmap_new.
  destruct (Z.ltb_spec (px (bound_max r) - px (bound_min r)) 0); [lia|].
  simpl. unfold for_rangeM at 1. rewrite seqZ_cons by lia. simpl.
  destruct (toMask_row_faults r (py (bound_min r))
              (init <$> seqZ 0 (px (bound_max r) - px (bound_min r)), m))
    as [f Hf]; [done| |].
  - simpl. rewrite length_fmap, length_seqZ. lia.
  - rewrite Hf. simpl. by eexists.
Qed.

End Rasterisation.

(** C8. The round trip through [toMask] does not give back a mask that
    holds the stored points.  The 2×2 mask at (0,0) with all four cells set
    gives the Region with the points (0,0), (1,0), (0,1), (1,1) and the
    bounds (0,0) and (1,1).  [toMask] allocates a matrix of
    [bound_max.y - 1 = 0] rows and [bound_max.x - 1 = 0] columns, too small
    for the box, and its first write, for the stored point (0,0), is
    outside that matrix, whatever the order on points and the initial
    content of [xmap] are. *)
Theorem toMask_roundtrip_loses_boundary :
  ∃ r, Region_of_Mat (Mat_fill 2 2 0 0 255) true = Ok r
    ∧ points r = [mkRPoint 0 0; mkRPoint 1 0; mkRPoint 0 1; mkRPoint 1 1]
    ∧ bound_min r = mkRPoint 0 0 ∧ bound_max r = mkRPoint 1 1
    ∧ Mat_zeros (py (bound_max r) - 1) (px (bound_max r) - 1)
      = Ok (mkMat 0 0 0 0 [])
    ∧ ∀ RPoint_lt init,
        toMask RPoint_lt init r = Fault (MatOutOfBounds 0 0).
Proof.
  eexists. split; [by vm_compute|]. simpl.
  do 4 (split; [done|]).
  intros lt init. unfold toMask. simpl bound_max. simpl bound_min.
  change (Mat_zeros (1 - 1) (1 - 1)) with (Ok (mkMat 0 0 0 0 [])).
  change (xmap_new init (1 - 0)) with (Ok [init 0]).
  simpl. unfold for_rangeM.
  change (seqZ 0 (1 + 1 - 0)) with [0; 1].
  cbn [for_each].
  rewrite toMask_cell_boundary; [done|by vm_compute|simpl; lia].
Qed.

(** C9. [toMask] indexes [xmap] by the column coordinate itself and runs
    the column up to [bound_max.x] inclusive.  For the 2×2 rectangle at
    (0,0) the array has [bound_max.x - bound_min.x = 2] cells and the sweep
    of row 0 reaches [xmap[2]], whatever the order on points is. *)
Theorem toMask_xmap_index_out_of_bounds :
  let r := Region_rect (Mat_fill 2 2 0 0 0) in
  px (bound_max r) - px (bound_min r) = 2
  ∧ xmap_new (λ _, 0) (px (bound_max r) - px (bound_min r)) = Ok [0; 0]
  ∧ 2 ∈ seqZ (px (bound_min r)) (px (bound_max r) + 1 - px (bound_min r))
  ∧ (∀ RPoint_lt i a b m,
       toMask_cell RPoint_lt r i 2 ([a; b], m)
       = Fault (XmapOutOfBounds 2 2))
  ∧ (∀ RPoint_lt,
       toMask RPoint_lt (λ _, 0) r = Fault (XmapOutOfBounds 2 2))
  ∧ (∀ RPoint_lt init, ∃ f, toMask RPoint_lt init r = Fault f).
Proof.
  intros r. split; [done|]. split; [done|].
  split; [by_evaluation|].
  split; [|split].
  - intros lt i a b m.
    apply (toMask_cell_outside lt r i 2 ([a; b], m)). simpl. lia.
  - intros lt. by vm_compute.
  - intros lt init. apply toMask_faults; simpl; lia.
Qed.

(** * Further properties of the code *)

(** ** The row index *)

(** X1. The keys of the row index built by [buildYMap] are exactly the rows
    of the points, for every point sequence, sorted or not. *)
Theorem row_index_keys (pts : list RPoint) (y : Z) :
  is_Some (buildYMap pts !! y) ↔ ∃ q, q ∈ pts ∧ py q = y.
Proof.
  rewrite <- elem_of_dom, buildYMap_dom, elem_of_list_to_set,
    list_elem_of_fmap.
  split; intros (q & H1 & H2); exists q; done.
Qed.

Lemma list_find_row_cons_ne (y : Z) (q : RPoint) (rest : list RPoint) (i : Z) :
  py q ≠ y →
  (λ ix : nat * RPoint, i + Z.of_nat ix.1)
    <$> list_find (λ q', py q' = y) (q :: rest)
  = (λ ix : nat * RPoint, i + 1 + Z.of_nat ix.1)
      <$> list_find (λ q', py q' = y) rest.
Proof.
  intros Hne. cbn. rewrite decide_False by done.
  destruct (list_find _ rest) as [[k x]|]; simpl; [|done].
  f_equal. lia.
Qed.

Lemma buildYMap_loop_sorted (rest : list RPoint) :
  ∀ i current (ym : gmap Z Z) y,
    StronglySorted row_le rest →
    Forall (λ q, current ≤ py q) rest →
    (∀ k, is_Some (ym !! k) → k ≤ current) →
    is_Some (ym !! current) →
    buildYMap_loop i current ym rest !! y
    = match ym !! y with
      | Some v => Some v
      | None => (λ ix : nat * RPoint, i + Z.of_nat ix.1)
                  <$> list_find (λ q, py q = y) rest
      end.
Proof.
  induction rest as [|q rest IH]; intros i current ym y Hs Hge Hkeys Hcur.
  - simpl. by destruct (ym !! y).
  - apply StronglySorted_cons in Hs as [Hq Hs].
    apply Forall_cons in Hge as [Hcq Hge]. simpl.
    destruct (Z.eqb_spec current (py q)) as [E|E]; simpl.
    + rewrite IH; [|done|done|done|done].
      destruct (ym !! y) eqn:Hy; [done|].
      symmetry. apply list_find_row_cons_ne.
      intros <-. rewrite E, Hy in Hcur. by destruct Hcur.
    + rewrite IH; [|done|exact Hq| |].
      * rewrite lookup_insert. case_decide as Hd.
        -- subst y. destruct (ym !! py q) eqn:Hy.
           { assert (py q ≤ current) by (apply Hkeys; by rewrite Hy). lia. }
           cbn. rewrite ?decide_True by done. simpl. f_equal. lia.
        -- destruct (ym !! y); [done|].
           destruct (list_find _ rest) as [[k x]|]; simpl; [|done].
           f_equal. lia.
      * intros k. rewrite lookup_insert. case_decide as Hd; [lia|].
        intros Hk%Hkeys. lia.
      * by rewrite lookup_insert_eq.
Qed.

Lemma buildYMap_sorted_lookup (pts : list RPoint) (y : Z) :
  StronglySorted row_le pts →
  buildYMap pts !! y
  = (λ ix : nat * RPoint, Z.of_nat ix.1) <$> list_find (λ q, py q = y) pts.
Proof.
  intros Hsorted.
  destruct pts as [|p0 pts]; [done|]. unfold buildYMap.
  rewrite buildYMap_loop_sorted; [|done| | |].
  - rewrite lookup_insert. case_decide as Hd.
    + subst y. cbn. by rewrite ?decide_True by done.
    + rewrite lookup_empty.
      destruct (list_find _ (p0 :: pts)) as [[k x]|]; simpl; [|done].
      f_equal.
  - apply StronglySorted_cons in Hsorted as [Hq _].
    apply Forall_cons. split; [lia | exact Hq].
  - intros k. rewrite lookup_insert. case_decide as Hd; [lia|].
    rewrite lookup_empty. by intros [? ?].
  - by rewrite lookup_insert_eq.
Qed.

(** X2. On a point sequence whose rows never decrease, the row index maps
    each row to the position of the first point of that row. *)
Theorem row_index_first_of_row (pts : list RPoint) (y : Z)
  (Hsorted : StronglySorted row_le pts) :
  buildYMap pts !! y
  = (λ ix : nat * RPoint, Z.of_nat ix.1) <$> list_find (λ q, py q = y) pts.
Proof. by apply buildYMap_sorted_lookup. Qed.

Lemma row_index_first_of_row_witness :
  buildYMap (rect_points (Mat_fill 5 4 0 0 0)) !! 2
  = (λ ix : nat * RPoint, Z.of_nat ix.1)
      <$> list_find (λ q, py q = 2) (rect_points (Mat_fill 5 4 0 0 0)).
Proof.
  apply row_index_first_of_row.
  apply rect_points_sorted. simpl. lia.
Defined.

(** ** Boundary membership *)

(** X3. [inBoundary(p)] answers true exactly when the row index maps the row
    of [p] to the number [p.y()] itself and the point stored at that
    position is [p]. *)
Theorem inBoundary_accepts_iff (r : Region) (p : RPoint) :
  inBoundary r p = true ↔
  ycoords r !! py p = Some (py p) ∧ points r !! Z.to_nat (py p) = Some p.
Proof. apply inBoundary_true. Qed.

(** X4. [inBoundary] never accepts a point that is not stored. *)
Theorem inBoundary_only_stored (r : Region) (p : RPoint)
  (Hin : inBoundary r p = true) : p ∈ points r.
Proof. by apply inBoundary_sound. Qed.

Lemma inBoundary_only_stored_witness :
  mkRPoint 0 0 ∈ points (Region_rect (Mat_fill 5 4 0 0 0)).
Proof.
  apply inBoundary_only_stored. reflexivity.
Defined.

Lemma inBoundary_no_points (r : Region) (p : RPoint) :
  points r = [] → inBoundary r p = false.
Proof.
  intros H. apply not_true_is_false. intros Hin%inBoundary_sound.
  rewrite H in Hin. by apply not_elem_of_nil in Hin.
Qed.

Lemma interior_hit_stored (r : Region) (p : RPoint) (j : Z) :
  interior_hit r p j = true →
  ∃ q, q ∈ points r
       ∧ ((py q = py p ∧ (px q = px p + j ∨ px q = px p - j))
          ∨ (px q = px p ∧ (py q = py p + j ∨ py q = py p - j))).
Proof.
  unfold interior_hit. rewrite !orb_true_iff.
  intros [[[H|H]|H]|H]; apply inBoundary_sound in H;
    eexists; (split; [exact H|]); simpl; lia.
Qed.

(** X5. A region without points answers false to every query: no point is
    on its boundary, in its interior or contained, and it is adjacent to no
    region, whatever the call to [adjacentPoint] resolves to. *)
Theorem empty_region_queries (RPoint_lt : RPoint → RPoint → bool)
  (adjacentPoint_call : Region → RPoint → Region → bool)
  (r : Region) (Hempty : isEmpty r = true) :
  ∀ p other,
    inBoundary r p = false ∧ interior r p = false
    ∧ contains RPoint_lt r p = false
    ∧ adjacentTo adjacentPoint_call r other = false.
Proof.
  assert (points r = []) as Hnil.
  { unfold isEmpty in Hempty. apply Z.eqb_eq in Hempty.
    destruct (points r); [done | simpl in Hempty; lia]. }
  intros p other.
  assert (interior r p = false) as Hint.
  { apply not_true_is_false.
    intros (j & _ & (q & Hq & _)%interior_hit_stored & _)%interior_true_iff.
    rewrite Hnil in Hq. by apply not_elem_of_nil in Hq. }
  split; [by apply inBoundary_no_points|]. split; [done|]. split.
  - unfold contains. rewrite Hint, inBoundary_no_points by done.
    by destruct (_ || _).
  - unfold adjacentTo. rewrite Hnil. simpl.
    by destruct (_ || _).
Qed.

Lemma empty_region_queries_witness :
  inBoundary (Region_rect (Mat_fill 0 0 0 0 0)) (mkRPoint 3 4) = false
  ∧ interior (Region_rect (Mat_fill 0 0 0 0 0)) (mkRPoint 3 4) = false
  ∧ contains RPoint_lt_rowmajor (Region_rect (Mat_fill 0 0 0 0 0))
      (mkRPoint 3 4) = false
  ∧ adjacentTo adjacentPoint_on_other (Region_rect (Mat_fill 0 0 0 0 0))
      (Region_rect (Mat_fill 2 2 0 0 0)) = false.
Proof.
  apply (empty_region_queries RPoint_lt_rowmajor adjacentPoint_on_other
           (Region_rect (Mat_fill 0 0 0 0 0))).
  reflexivity.
Defined.

(** ** The interior test *)

(** X6. [interior(p)] answers true exactly when there is a distance [j ≥ 1]
    at which one of the four probes is accepted by [inBoundary], no probe
    was accepted at a smaller distance, and at no distance up to [j] the
    four exit tests held together; in every other case the loop ends with
    false. *)
Theorem interior_first_hit_decides (r : Region) (p : RPoint) :
  interior r p = true ↔
  ∃ j, 1 ≤ j ∧ interior_hit r p j = true
       ∧ ∀ k, 1 ≤ k ≤ j →
              interior_exit r p k = false
              ∧ (k < j → interior_hit r p k = false).
Proof. apply interior_true_iff. Qed.

Lemma interior_true_point_on_axis (r : Region) (p : RPoint) :
  interior r p = true →
  ∃ q j, q ∈ points r ∧ 1 ≤ j ≤ interior_reach r p
         ∧ ((py q = py p ∧ (px q = px p + j ∨ px q = px p - j))
            ∨ (px q = px p ∧ (py q = py p + j ∨ py q = py p - j))).
Proof.
  intros Hint.
  apply interior_true_iff in Hint as (j & Hj & Hhit & Hk).
  apply interior_hit_stored in Hhit as (q & Hq & Hpos).
  destruct (Hk j) as [Hexit _]; [lia|].
  apply interior_exit_false_reach in Hexit.
  exists q, j. split; [done|]. split; [lia | done].
Qed.

(** X7. [interior(p)] can only answer true when a stored point other than
    [p] lies on the row or on the column of [p], no farther from [p] than
    the farthest side of the bounding box. *)
Theorem interior_needs_point_on_axis (r : Region) (p : RPoint)
  (Hint : interior r p = true) :
  ∃ q j, q ∈ points r ∧ 1 ≤ j ≤ interior_reach r p
         ∧ ((py q = py p ∧ (px q = px p + j ∨ px q = px p - j))
            ∨ (px q = px p ∧ (py q = py p + j ∨ py q = py p - j))).
Proof. by apply interior_true_point_on_axis. Qed.

Lemma interior_needs_point_on_axis_witness :
  ∃ q j, q ∈ points (Region_rect (Mat_fill 5 4 0 0 0))
         ∧ 1 ≤ j ≤ interior_reach (Region_rect (Mat_fill 5 4 0 0 0))
                     (mkRPoint 2 0)
         ∧ ((py q = 0 ∧ (px q = 2 + j ∨ px q = 2 - j))
            ∨ (px q = 2 ∧ (py q = 0 + j ∨ py q = 0 - j))).
Proof.
  apply (interior_needs_point_on_axis
           (Region_rect (Mat_fill 5 4 0 0 0)) (mkRPoint 2 0)).
  reflexivity.
Defined.

Lemma interior_off_axes (r : Region) (p : RPoint) :
  (∀ q, q ∈ points r → py q ≠ py p ∧ px q ≠ px p) → interior r p = false.
Proof.
  intros Hoff. apply not_true_is_false. intros Hint.
  apply interior_true_point_on_axis in Hint as (q & j & Hq & _ & Hpos).
  destruct (Hoff q Hq). lia.
Qed.

(** X8. A point with every stored point on another row and another column
    is neither interior nor contained, whatever the order on points is. *)
Theorem interior_false_off_axes (RPoint_lt : RPoint → RPoint → bool)
  (r : Region) (p : RPoint)
  (Hoff : ∀ q, q ∈ points r → py q ≠ py p ∧ px q ≠ px p) :
  interior r p = false ∧ contains RPoint_lt r p = false.
Proof.
  assert (inBoundary r p = false) as Hb.
  { apply not_true_is_false. intros Hin%inBoundary_sound.
    by destruct (Hoff p Hin). }
  split; [by apply interior_off_axes|].
  unfold contains. rewrite Hb, interior_off_axes by done.
  by destruct (_ || _).
Qed.

Lemma interior_false_off_axes_witness :
  interior (Region_rect (Mat_fill 2 2 0 0 0)) (mkRPoint 7 9) = false
  ∧ contains RPoint_lt_rowmajor (Region_rect (Mat_fill 2 2 0 0 0))
      (mkRPoint 7 9) = false.
Proof.
  apply interior_false_off_axes.
  intros q Hq. simpl.
  apply list_elem_of_In in Hq. vm_compute in Hq.
  destruct Hq as [<-|[<-|[<-|[<-|[]]]]]; simpl; lia.
Defined.

(** ** Adjacency *)

Lemma adjacentPoint_stored (r : Region) (p : RPoint) :
  adjacentPoint r p = true → ∃ q, q ∈ points r ∧ neighbour4 p q.
Proof.
  unfold adjacentPoint. rewrite !orb_true_iff.
  intros [[[H|H]|H]|H]; apply inBoundary_sound in H;
    eexists; (split; [exact H|]); unfold neighbour4; simpl; lia.
Qed.

(** X9. [adjacentPoint(p)], as the sources define it, answers true only if
    a 4-neighbour of [p] is a stored point of the region it is called
    on. *)
Theorem adjacentPoint_needs_stored_neighbour (r : Region) (p : RPoint)
  (Hadj : adjacentPoint r p = true) :
  ∃ q, q ∈ points r ∧ neighbour4 p q.
Proof. by apply adjacentPoint_stored. Qed.

Lemma adjacentPoint_needs_stored_neighbour_witness :
  ∃ q, q ∈ points (Region_rect (Mat_fill 5 4 0 0 0))
       ∧ neighbour4 (mkRPoint 1 0) q.
Proof.
  apply adjacentPoint_needs_stored_neighbour. reflexivity.
Defined.

(** X10. When the bounds of two regions enclose their points and one box
    lies beyond the other in both axes, which is the test [adjacentTo]
    starts with, then [adjacentTo] answers false in both directions,
    whatever the call to [adjacentPoint] resolves to, and indeed no stored
    point of one region is a 4-neighbour of a stored point of the other:
    the early exit loses no adjacent pair. *)
Theorem bounding_box_rejection_sound
  (adjacentPoint_call : Region → RPoint → Region → bool) (a b : Region)
  (Ha : box_encloses a) (Hb : box_encloses b)
  (Hapart : px (bound_max b) < px (bound_min a)
            ∧ py (bound_max b) < py (bound_min a)) :
  adjacentTo adjacentPoint_call a b = false
  ∧ adjacentTo adjacentPoint_call b a = false
  ∧ ∀ p q, p ∈ points a → q ∈ points b → ¬ neighbour4 p q.
Proof.
  destruct Hapart as [Hx Hy].
  split; [|split].
  - apply Z.ltb_lt in Hx, Hy.
    unfold adjacentTo. by rewrite Hx, Hy.
  - apply Z.ltb_lt in Hx, Hy.
    unfold adjacentTo. rewrite Hx, Hy. simpl.
    by rewrite orb_true_r.
  - intros p q Hp Hq. apply Ha in Hp. apply Hb in Hq.
    unfold neighbour4. lia.
Qed.

Lemma bounding_box_rejection_sound_witness :
  adjacentTo adjacentPoint_on_other (Region_rect (Mat_fill 11 11 10 10 0))
             (Region_rect (Mat_fill 2 2 0 0 0)) = false
  ∧ adjacentTo adjacentPoint_on_other (Region_rect (Mat_fill 2 2 0 0 0))
               (Region_rect (Mat_fill 11 11 10 10 0)) = false
  ∧ ∀ p q, p ∈ points (Region_rect (Mat_fill 11 11 10 10 0)) →
           q ∈ points (Region_rect (Mat_fill 2 2 0 0 0)) →
           ¬ neighbour4 p q.
Proof.
  apply bounding_box_rejection_sound.
  - intros p Hp. revert p Hp. apply Forall_forall.
    apply (bool_decide_unpack _). vm_compute. exact I.
  - intros p Hp. revert p Hp. apply Forall_forall.
    apply (bool_decide_unpack _). vm_compute. exact I.
  - simpl. lia.
Defined.

(** ** Rectangle mode *)

Lemma rect_top_elem (m : Mat) (p : RPoint) :
  p ∈ rect_top m ↔
  py p = roi_y m ∧ roi_x m ≤ px p < roi_x m + roi_width m.
Proof.
  unfold rect_top. rewrite list_elem_of_fmap. setoid_rewrite elem_of_seqZ.
  split.
  - intros (i & -> & Hi). simpl. lia.
  - intros [Hy Hx]. exists (px p - roi_x m). split; [|lia].
    destruct p as [x y]; simpl in *. f_equal; lia.
Qed.

Lemma rect_bottom_elem (m : Mat) (p : RPoint) :
  p ∈ rect_bottom m ↔
  py p = roi_y m + roi_height m - 1
  ∧ roi_x m ≤ px p < roi_x m + roi_width m.
Proof.
  unfold rect_bottom. rewrite list_elem_of_fmap. setoid_rewrite elem_of_seqZ.
  split.
  - intros (i & -> & Hi). simpl. lia.
  - intros [Hy Hx]. exists (px p - roi_x m). split; [|lia].
    destruct p as [x y]; simpl in *. f_equal; lia.
Qed.

Lemma rect_sides_elem (m : Mat) (p : RPoint) :
  p ∈ rect_sides m ↔
  roi_y m + 1 ≤ py p ≤ roi_y m + roi_height m - 2
  ∧ (px p = roi_x m ∨ px p = roi_x m + roi_width m - 1).
Proof.
  unfold rect_sides. rewrite list_elem_of_bind.
  setoid_rewrite elem_of_seqZ. split.
  - intros (i & Hp & Hi).
    apply elem_of_cons in Hp as [->|Hp]; simpl; [lia|].
    apply list_elem_of_singleton in Hp as ->. simpl. lia.
  - intros [Hy Hx]. exists (py p - roi_y m). split; [|lia].
    destruct p as [x y]; simpl in *.
    destruct Hx as [->| ->].
    + apply elem_of_cons. left. f_equal; lia.
    + apply elem_of_cons. right. apply list_elem_of_singleton.
      f_equal; lia.
Qed.

Lemma rect_points_elem (m : Mat) (p : RPoint) :
  p ∈ points (Region_rect m) ↔
  (roi_x m ≤ px p < roi_x m + roi_width m
   ∧ (py p = roi_y m ∨ py p = roi_y m + roi_height m - 1))
  ∨ (roi_y m + 1 ≤ py p ≤ roi_y m + roi_height m - 2
     ∧ (px p = roi_x m ∨ px p = roi_x m + roi_width m - 1)).
Proof.
  simpl. rewrite rect_points_runs, !elem_of_app.
  rewrite rect_top_elem, rect_sides_elem, rect_bottom_elem.
  split.
  - intros [[Hy Hx]|[H|[Hy Hx]]]; [left|right|left]; auto.
  - intros [[Hx [Hy|Hy]]|H]; auto.
Qed.

(** X11. The points stored in rectangle mode are exactly the pixels of the
    perimeter: those of the first and of the last row of the extent, and in
    the rows between them the first and the last column. *)
Theorem rect_points_are_perimeter (m : Mat) (p : RPoint) :
  p ∈ points (Region_rect m) ↔
  (roi_x m ≤ px p < roi_x m + roi_width m
   ∧ (py p = roi_y m ∨ py p = roi_y m + roi_height m - 1))
  ∨ (roi_y m + 1 ≤ py p ≤ roi_y m + roi_height m - 2
     ∧ (px p = roi_x m ∨ px p = roi_x m + roi_width m - 1)).
Proof. apply rect_points_elem. Qed.

(** X12. For an extent of at least one row and one column, every stored
    point lies in the box from [bound_min] (inclusive) to [bound_max]
    (exclusive), in both axes. *)
Theorem rect_points_within_bounds (m : Mat) (p : RPoint)
  (Hw : 1 ≤ roi_width m) (Hh : 1 ≤ roi_height m)
  (Hp : p ∈ points (Region_rect m)) :
  px (bound_min (Region_rect m)) ≤ px p < px (bound_max (Region_rect m))
  ∧ py (bound_min (Region_rect m)) ≤ py p < py (bound_max (Region_rect m)).
Proof.
  apply rect_points_elem in Hp. simpl. lia.
Qed.

Lemma rect_points_within_bounds_witness :
  px (bound_min (Region_rect (Mat_fill 5 4 0 0 0))) ≤ 4
    < px (bound_max (Region_rect (Mat_fill 5 4 0 0 0)))
  ∧ py (bound_min (Region_rect (Mat_fill 5 4 0 0 0))) ≤ 2
    < py (bound_max (Region_rect (Mat_fill 5 4 0 0 0))).
Proof.
  apply (rect_points_within_bounds (Mat_fill 5 4 0 0 0) (mkRPoint 4 2));
    [simpl; lia | simpl; lia |].
  apply (bool_decide_unpack _). vm_compute. exact I.
Defined.

(** X13. Rectangle mode stores [2·max(w,0) + 2·max(h−2,0)] points for every
    extent, so the region is empty exactly when [w ≤ 0] and [h ≤ 2]. *)
Theorem rect_points_count (m : Mat) :
  Z.of_nat (length (points (Region_rect m)))
  = 2 * Z.max 0 (roi_width m) + 2 * Z.max 0 (roi_height m - 2)
  ∧ (isEmpty (Region_rect m) = true ↔ roi_width m ≤ 0 ∧ roi_height m ≤ 2).
Proof.
  assert (Z.of_nat (length (points (Region_rect m)))
          = 2 * Z.max 0 (roi_width m) + 2 * Z.max 0 (roi_height m - 2)) as E.
  { simpl. rewrite rect_points_runs.
    unfold rect_top, rect_sides, rect_bottom.
    rewrite !length_app, !length_fmap, (length_bind_const _ 2) by done.
    rewrite !length_seqZ. lia. }
  split; [exact E|].
  unfold isEmpty. rewrite Z.eqb_eq, E. lia.
Qed.

Lemma rect_bottom_is_top (m : Mat) :
  roi_height m = 1 → rect_bottom m = rect_top m.
Proof.
  intros Hh. unfold rect_bottom, rect_top.
  apply list_fmap_ext. intros _ i _. f_equal. lia.
Qed.

(** X14. For an extent of one row, the loop for the first row and the loop
    for the last row both run over that row: every pixel of the row is
    stored twice. *)
Theorem rect_single_row_stored_twice (m : Mat)
  (Hh : roi_height m = 1) :
  points (Region_rect m) = rect_top m ++ rect_top m.
Proof.
  simpl. rewrite rect_points_runs, rect_bottom_is_top by done.
  unfold rect_sides. rewrite seqZ_nil by lia. done.
Qed.

Lemma rect_single_row_stored_twice_witness :
  points (Region_rect (Mat_fill 3 1 0 0 0))
  = rect_top (Mat_fill 3 1 0 0 0) ++ rect_top (Mat_fill 3 1 0 0 0).
Proof.
  apply rect_single_row_stored_twice. reflexivity.
Defined.

(** X15. For an extent of at least two rows and two columns no pixel is
    stored twice. *)
Theorem rect_points_NoDup (m : Mat)
  (Hw : 2 ≤ roi_width m) (Hh : 2 ≤ roi_height m) :
  NoDup (points (Region_rect m)).
Proof.
  simpl. rewrite rect_points_runs.
  apply NoDup_app. split; [|split; [|apply NoDup_app; split; [|split]]].
  - unfold rect_top. apply NoDup_fmap_2_strong; [|apply NoDup_seqZ].
    intros i j _ _ [= E]. lia.
  - intros p Hp. apply rect_top_elem in Hp.
    rewrite elem_of_app, rect_sides_elem, rect_bottom_elem. lia.
  - unfold rect_sides. apply NoDup_bind; [| |apply NoDup_seqZ].
    + intros i j p _ _ Hi Hj.
      assert (∀ k, p ∈ [mkRPoint (roi_x m) (roi_y m + k);
                        mkRPoint (roi_x m + roi_width m - 1) (roi_y m + k)]
                   → py p = roi_y m + k) as Hrow.
      { intros k Hk. apply elem_of_cons in Hk as [->|Hk]; [done|].
        by apply list_elem_of_singleton in Hk as ->. }
      apply Hrow in Hi, Hj. lia.
    + intros i _. apply NoDup_cons. split; [|apply NoDup_singleton].
      rewrite list_elem_of_singleton. intros [= E]. lia.
  - intros p Hp. apply rect_sides_elem in Hp.
    rewrite rect_bottom_elem. lia.
  - unfold rect_bottom. apply NoDup_fmap_2_strong; [|apply NoDup_seqZ].
    intros i j _ _ [= E]. lia.
Qed.

Lemma rect_points_NoDup_witness :
  NoDup (points (Region_rect (Mat_fill 5 4 0 0 0))).
Proof.
  apply rect_points_NoDup; simpl; lia.
Defined.

(** ** Mask mode *)

Lemma mask_row_loop (m : Mat) (i : Z) (idx : list Z) :
  ∀ pts pts',
    for_each idx (mask_cell m i) pts = Ok pts' →
    pts' = pts ++ (idx ≫= λ j,
                     match mask_edge m i j with
                     | Ok true => [mkRPoint (j + roi_x m) (i + roi_y m)]
                     | _ => []
                     end).
Proof.
  induction idx as [|j idx IH]; intros pts pts'.
  - simpl. intros [= <-]. by rewrite app_nil_r.
  - rewrite bind_cons. cbn [for_each].
    destruct (mask_cell m i j pts) as [pts1|] eqn:Hcell; csimpl; [|done].
    intros H%IH. subst pts'.
    unfold mask_cell in Hcell.
    destruct (mask_edge m i j) as [[|]|]; simplify_eq/=.
    + by rewrite <- app_assoc.
    + done.
Qed.

Lemma mask_rows_loop (m : Mat) (idx : list Z) :
  ∀ pts pts',
    for_each idx
      (λ i pts, for_rangeM 0 (roi_width m) (mask_cell m i) pts) pts = Ok pts' →
    pts' = pts ++ (idx ≫= mask_row_stored m).
Proof.
  induction idx as [|i idx IH]; intros pts pts'.
  - simpl. intros [= <-]. by rewrite app_nil_r.
  - rewrite bind_cons. cbn [for_each].
    destruct (for_rangeM 0 (roi_width m) (mask_cell m i) pts) as [pts1|]
      eqn:Hrow; csimpl; [|done].
    apply mask_row_loop in Hrow. fold (mask_row_stored m i) in Hrow.
    intros H%IH. by rewrite H, Hrow, <- app_assoc.
Qed.

(** When the loops complete, they have collected [mask_stored]. *)
Lemma mask_points_stored (m : Mat) (pts : list RPoint) :
  mask_points m = Ok pts → pts = mask_stored m.
Proof. intros H. by apply mask_rows_loop in H. Qed.

Lemma mask_stored_elem (m : Mat) (q : RPoint) :
  q ∈ mask_stored m ↔
  ∃ i j, 0 ≤ i < roi_height m ∧ 0 ≤ j < roi_width m
         ∧ mask_edge m i j = Ok true
         ∧ q = mkRPoint (j + roi_x m) (i + roi_y m).
Proof.
  unfold mask_stored, mask_row_stored. rewrite list_elem_of_bind. split.
  - intros (i & (j & Hq & Hj)%list_elem_of_bind & Hi).
    apply elem_of_seqZ in Hi, Hj.
    destruct (mask_edge m i j) as [[|]|] eqn:He;
      [|by apply not_elem_of_nil in Hq..].
    apply list_elem_of_singleton in Hq.
    exists i, j. repeat split; try done; lia.
  - intros (i & j & Hi & Hj & He & ->).
    exists i. split; [|apply elem_of_seqZ; lia].
    apply list_elem_of_bind. exists j. split; [|apply elem_of_seqZ; lia].
    rewrite He. by apply list_elem_of_singleton.
Qed.

Lemma mask_edge_true_set (m : Mat) (i j : Z) :
  mask_edge m i j = Ok true → cell m i j ≠ 0.
Proof.
  unfold mask_edge. destruct (Z.eqb_spec (cell m i j) 0); [done|]. done.
Qed.

Lemma mask_edge_row_edge (m : Mat) (i j : Z) :
  cell m i j ≠ 0 →
  i = 0 ∨ j = 0 ∨ i = roi_height m - 1 ∨ j = roi_width m - 1
  ∨ cell m i (j - 1) = 0 ∨ cell m i (j + 1) = 0 →
  mask_edge m i j = Ok true.
Proof.
  intros Hset Hedge. unfold mask_edge.
  destruct (Z.eqb_spec (cell m i j) 0); [done|].
  assert ((i =? 0) || (j =? 0) || (i =? roi_height m - 1)
          || (j =? roi_width m - 1) || (cell m i (j - 1) =? 0)
          || (cell m i (j + 1) =? 0) = true) as ->; [|done].
  rewrite !orb_true_iff, !Z.eqb_eq. tauto.
Qed.

Lemma mask_stored_sorted (m : Mat) : StronglySorted row_le (mask_stored m).
Proof.
  unfold mask_stored.
  destruct (Z.le_gt_cases (roi_height m - 0) 0) as [H|H].
  { rewrite seqZ_nil by done. constructor. }
  replace (roi_height m - 0) with (Z.of_nat (Z.to_nat (roi_height m - 0)))
    by lia.
  apply (bind_rows_sorted _ (roi_y m)).
  intros i q (j & Hq & _)%list_elem_of_bind.
  destruct (mask_edge m i j) as [[|]|];
    [|by apply not_elem_of_nil in Hq..].
  apply list_elem_of_singleton in Hq as ->. simpl. lia.
Qed.

(** X16. When the mask loops complete, the collected points are exactly the
    positions, plus the offset, of the cells inside the mask for which the
    test of the [if] holds. *)
Theorem mask_points_content (m : Mat) (pts : list RPoint) (q : RPoint)
  (Hpts : mask_points m = Ok pts) :
  q ∈ pts ↔
  ∃ i j, 0 ≤ i < roi_height m ∧ 0 ≤ j < roi_width m
         ∧ mask_edge m i j = Ok true
         ∧ q = mkRPoint (j + roi_x m) (i + roi_y m).
Proof.
  apply mask_points_stored in Hpts as ->. apply mask_stored_elem.
Qed.

Lemma mask_points_content_witness :
  mkRPoint 2 1 ∈ [mkRPoint 0 1; mkRPoint 2 1; mkRPoint 11 1] ↔
  ∃ i j, 0 ≤ i < roi_height edge_mask ∧ 0 ≤ j < roi_width edge_mask
         ∧ mask_edge edge_mask i j = Ok true
         ∧ mkRPoint 2 1 = mkRPoint (j + roi_x edge_mask) (i + roi_y edge_mask).
Proof.
  apply (mask_points_content edge_mask). reflexivity.
Defined.

(** X17. Mask mode stores set cells of the mask only: every collected point
    is the position, plus the offset, of a cell inside the mask that is not
    zero. *)
Theorem mask_points_are_set_cells (m : Mat) (pts : list RPoint) (q : RPoint)
  (Hpts : mask_points m = Ok pts) (Hq : q ∈ pts) :
  ∃ i j, 0 ≤ i < roi_height m ∧ 0 ≤ j < roi_width m
         ∧ cell m i j ≠ 0
         ∧ q = mkRPoint (j + roi_x m) (i + roi_y m).
Proof.
  apply mask_points_stored in Hpts as ->.
  apply mask_stored_elem in Hq as (i & j & Hi & Hj & He & ->).
  exists i, j. split; [done|]. split; [done|].
  split; [by apply mask_edge_true_set | done].
Qed.

Lemma mask_points_are_set_cells_witness :
  ∃ i j, 0 ≤ i < roi_height edge_mask ∧ 0 ≤ j < roi_width edge_mask
         ∧ cell edge_mask i j ≠ 0
         ∧ mkRPoint 11 1
           = mkRPoint (j + roi_x edge_mask) (i + roi_y edge_mask).
Proof.
  apply (mask_points_are_set_cells edge_mask
           [mkRPoint 0 1; mkRPoint 2 1; mkRPoint 11 1]).
  - reflexivity.
  - apply (bool_decide_unpack _). vm_compute. exact I.
Defined.

(** X18. When the mask loops complete, every set cell on the outer border
    of the mask, and every set cell whose left or right neighbour is unset,
    has been stored. *)
Theorem mask_row_edges_stored (m : Mat) (pts : list RPoint) (i j : Z)
  (Hpts : mask_points m = Ok pts)
  (Hi : 0 ≤ i < roi_height m) (Hj : 0 ≤ j < roi_width m)
  (Hset : cell m i j ≠ 0)
  (Hedge : i = 0 ∨ j = 0 ∨ i = roi_height m - 1 ∨ j = roi_width m - 1
           ∨ cell m i (j - 1) = 0 ∨ cell m i (j + 1) = 0) :
  mkRPoint (j + roi_x m) (i + roi_y m) ∈ pts.
Proof.
  apply mask_points_stored in Hpts as ->.
  apply mask_stored_elem. exists i, j.
  split; [done|]. split; [done|].
  split; [by apply mask_edge_row_edge | done].
Qed.

Lemma mask_row_edges_stored_witness :
  mkRPoint (2 + roi_x edge_mask) (1 + roi_y edge_mask)
    ∈ [mkRPoint 0 1; mkRPoint 2 1; mkRPoint 11 1].
Proof.
  apply (mask_row_edges_stored edge_mask).
  - reflexivity.
  - simpl. lia.
  - simpl. lia.
  - vm_compute. discriminate.
  - right. right. right. right. right. reflexivity.
Defined.

(** X19. The points collected in mask mode are in non-decreasing row
    order. *)
Theorem mask_points_rows_sorted (m : Mat) (pts : list RPoint)
  (Hpts : mask_points m = Ok pts) :
  StronglySorted row_le pts.
Proof.
  apply mask_points_stored in Hpts as ->. apply mask_stored_sorted.
Qed.

Lemma mask_points_rows_sorted_witness :
  StronglySorted row_le [mkRPoint 0 1; mkRPoint 2 1; mkRPoint 11 1].
Proof.
  apply (mask_points_rows_sorted edge_mask). reflexivity.
Defined.

Lemma sorted_head_least (l : list RPoint) (a p : RPoint) :
  StronglySorted row_le l → head l = Some a → p ∈ l → py a ≤ py p.
Proof.
  intros Hs Hhd Hp. destruct l as [|a' l]; [done|].
  injection Hhd as ->.
  apply StronglySorted_cons in Hs as [Hall _].
  apply elem_of_cons in Hp as [->|Hp]; [lia|].
  rewrite Forall_forall in Hall. by apply Hall.
Qed.

Lemma sorted_last_greatest (l : list RPoint) (b p : RPoint) :
  StronglySorted row_le l → list.last l = Some b → p ∈ l → py p ≤ py b.
Proof.
  intros Hs Hlast Hp. apply last_Some in Hlast as [l' ->].
  apply StronglySorted_app in Hs as (Hall & _ & _).
  apply elem_of_app in Hp as [Hp|Hp].
  - apply (Hall p b); [done|]. by apply list_elem_of_singleton.
  - apply list_elem_of_singleton in Hp as ->. lia.
Qed.

Lemma Region_mask_ok (m : Mat) (r : Region) :
  Region_mask m = Ok r →
  mask_points m = Ok (points r)
  ∧ head (points r) = Some (bound_min r)
  ∧ list.last (points r) = Some (bound_max r)
  ∧ ycoords r = buildYMap (points r).
Proof.
  unfold Region_mask.
  destruct (mask_points m) as [pts|]; simpl; [|done].
  unfold first, last.
  destruct (head pts) as [p0|] eqn:Hhd; simpl; [|done].
  destruct (list.last pts) as [p1|] eqn:Hlast; simpl; [|done].
  by intros [= <-].
Qed.

(** X20. A region that mask mode constructs is never empty; its two bounds
    are stored points, and they bound the rows of all stored points:
    [bound_min.y ≤ p.y ≤ bound_max.y] for every stored [p]. *)
Theorem mask_region_bounds (m : Mat) (r : Region)
  (Hr : Region_of_Mat m true = Ok r) :
  isEmpty r = false
  ∧ bound_min r ∈ points r ∧ bound_max r ∈ points r
  ∧ ∀ p, p ∈ points r → py (bound_min r) ≤ py p ≤ py (bound_max r).
Proof.
  apply Region_mask_ok in Hr as (Hpts & Hhd & Hlast & _).
  assert (StronglySorted row_le (points r)) as Hs.
  { apply mask_points_stored in Hpts. rewrite Hpts.
    apply mask_stored_sorted. }
  split; [|split; [|split]].
  - unfold isEmpty. destruct (points r); [done|]. apply Z.eqb_neq.
    simpl. lia.
  - by apply head_Some_elem_of.
  - by apply last_Some_elem_of.
  - intros p Hp. split.
    + by eapply sorted_head_least.
    + by eapply sorted_last_greatest.
Qed.

Lemma mask_region_bounds_witness :
  ∃ r, Region_of_Mat edge_mask true = Ok r
       ∧ isEmpty r = false
       ∧ bound_min r ∈ points r ∧ bound_max r ∈ points r
       ∧ ∀ p, p ∈ points r → py (bound_min r) ≤ py p ≤ py (bound_max r).
Proof.
  eexists. split; [vm_compute; reflexivity|].
  apply (mask_region_bounds edge_mask). vm_compute. reflexivity.
Defined.

Lemma mask_row_has_stored (m : Mat) (i : Z) (n : nat) :
  ∀ j, Z.to_nat j = n → 0 ≤ j → cell m i j ≠ 0 →
       ∃ j', 0 ≤ j' ≤ j ∧ mask_edge m i j' = Ok true.
Proof.
  induction n as [|n IH]; intros j Hn Hj Hset.
  - exists j. split; [lia|]. apply mask_edge_row_edge; [done|].
    right. left. lia.
  - destruct (Z.eq_dec (cell m i (j - 1)) 0) as [E|E].
    + exists j. split; [lia|]. apply mask_edge_row_edge; [done|]. tauto.
    + destruct (IH (j - 1)) as (j' & Hj' & He); [lia | lia | done |].
      exists j'. split; [lia | done].
Qed.

(** X21. When the mask has a set cell and the mask loops complete, at
    least one point has been collected, so [first()] and [last()] are taken
    of a non-empty sequence and the constructor returns a region. *)
Theorem mask_with_set_cell_constructs (m : Mat) (pts : list RPoint) (i j : Z)
  (Hpts : mask_points m = Ok pts)
  (Hi : 0 ≤ i < roi_height m) (Hj : 0 ≤ j < roi_width m)
  (Hset : cell m i j ≠ 0) :
  pts ≠ [] ∧ ∃ r, Region_of_Mat m true = Ok r ∧ points r = pts.
Proof.
  assert (pts ≠ []) as Hne.
  { destruct (mask_row_has_stored m i (Z.to_nat j) j) as (j' & Hj' & He);
      [done | lia | done |].
    assert (mkRPoint (j' + roi_x m) (i + roi_y m) ∈ pts) as Hin.
    { apply mask_points_stored in Hpts as ->. apply mask_stored_elem.
      exists i, j'. repeat split; try done; lia. }
    intros ->. by apply not_elem_of_nil in Hin. }
  split; [done|].
  unfold Region_of_Mat, Region_mask. rewrite Hpts. simpl.
  unfold first, last.
  destruct (head pts) as [p0|] eqn:Hhd.
  2: { by apply head_None in Hhd. }
  destruct (list.last pts) as [p1|] eqn:Hlast.
  2: { by apply last_None in Hlast. }
  simpl. by eexists.
Qed.

Lemma mask_with_set_cell_constructs_witness :
  [mkRPoint 0 1; mkRPoint 2 1; mkRPoint 11 1] ≠ []
  ∧ ∃ r, Region_of_Mat edge_mask true = Ok r
         ∧ points r = [mkRPoint 0 1; mkRPoint 2 1; mkRPoint 11 1].
Proof.
  apply (mask_with_set_cell_constructs edge_mask _ 1 1).
  - reflexivity.
  - simpl. lia.
  - simpl. lia.
  - vm_compute. discriminate.
Defined.

(** ** Invariants of constructed regions *)

Lemma rect_points_sorted_from_one (m : Mat) :
  1 ≤ roi_height m → StronglySorted row_le (rect_points m).
Proof.
  intros Hh. destruct (Z.eq_dec (roi_height m) 1) as [E|E].
  - rewrite rect_points_runs, rect_bottom_is_top by done.
    unfold rect_sides. rewrite seqZ_nil by lia. csimpl.
    apply (same_row_sorted (roi_y m)), Forall_forall.
    intros q [Hq|Hq]%elem_of_app; by apply rect_top_row.
  - apply rect_points_sorted. lia.
Qed.

Lemma constructed_sorted_indexed (m : Mat) (mask : bool) (r : Region) :
  Region_of_Mat m mask = Ok r → (mask = false → 1 ≤ roi_height m) →
  StronglySorted row_le (points r) ∧ ycoords r = buildYMap (points r).
Proof.
  destruct mask; simpl.
  - intros (Hpts & _ & _ & Hidx)%Region_mask_ok _. split; [|done].
    apply mask_points_stored in Hpts. rewrite Hpts.
    apply mask_stored_sorted.
  - intros [= <-] Hh. simpl. split; [|done].
    apply rect_points_sorted_from_one. by apply Hh.
Qed.

(** X22. Every region that the constructor returns, in mask mode or, for an
    extent of at least one row, in rectangle mode, has its points in
    non-decreasing row order and a row index that maps each row to the
    position of the first stored point of that row, and no other key. *)
Theorem constructed_row_index (m : Mat) (mask : bool) (r : Region) (y : Z)
  (Hr : Region_of_Mat m mask = Ok r)
  (Hh : mask = false → 1 ≤ roi_height m) :
  StronglySorted row_le (points r)
  ∧ ycoords r !! y
    = (λ ix : nat * RPoint, Z.of_nat ix.1)
        <$> list_find (λ q, py q = y) (points r).
Proof.
  destruct (constructed_sorted_indexed m mask r Hr Hh) as [Hs Hidx].
  split; [done|]. rewrite Hidx. by apply buildYMap_sorted_lookup.
Qed.

Lemma constructed_row_index_witness :
  StronglySorted row_le (points (Region_rect (Mat_fill 5 4 0 0 0)))
  ∧ ycoords (Region_rect (Mat_fill 5 4 0 0 0)) !! 3
    = (λ ix : nat * RPoint, Z.of_nat ix.1)
        <$> list_find (λ q, py q = 3)
              (points (Region_rect (Mat_fill 5 4 0 0 0))).
Proof.
  apply (constructed_row_index (Mat_fill 5 4 0 0 0) false).
  - reflexivity.
  - intros _. simpl. lia.
Defined.

Lemma inBoundary_sorted_indexed (r : Region) (p : RPoint) :
  StronglySorted row_le (points r) →
  ycoords r = buildYMap (points r) →
  inBoundary r p = true ↔
  0 ≤ py p
  ∧ list_find (λ q, py q = py p) (points r) = Some (Z.to_nat (py p), p).
Proof.
  intros Hs Hidx.
  rewrite inBoundary_true, Hidx, buildYMap_sorted_lookup by done.
  split.
  - intros [Hy Hl].
    destruct (list_find _ (points r)) as [[k x]|] eqn:E; [|done].
    simpl in Hy. injection Hy as Hk.
    assert (k = Z.to_nat (py p)) as -> by lia.
    apply list_find_Some in E as Hfind. destruct Hfind as (Hx & _ & _).
    split; [lia|]. congruence.
  - intros [Hy E]. rewrite E. simpl. split; [f_equal; lia|].
    by apply list_find_Some in E as (Hx & _ & _).
Qed.

(** X23. In a region with row-sorted points and the row index built from
    them, [inBoundary(p)] accepts [p] exactly when [p] is the first stored
    point of its row and its position in the sequence is the number
    [p.y()]; every other stored point is rejected. *)
Theorem inBoundary_first_of_row_only (r : Region) (p : RPoint)
  (Hs : StronglySorted row_le (points r))
  (Hidx : ycoords r = buildYMap (points r)) :
  inBoundary r p = true ↔
  0 ≤ py p
  ∧ list_find (λ q, py q = py p) (points r) = Some (Z.to_nat (py p), p).
Proof. by apply inBoundary_sorted_indexed. Qed.

Lemma inBoundary_first_of_row_only_witness :
  inBoundary (Region_rect (Mat_fill 5 4 0 0 0)) (mkRPoint 1 0) = true ↔
  0 ≤ 0
  ∧ list_find (λ q, py q = 0) (points (Region_rect (Mat_fill 5 4 0 0 0)))
    = Some (Z.to_nat 0, mkRPoint 1 0).
Proof.
  apply (inBoundary_first_of_row_only
           (Region_rect (Mat_fill 5 4 0 0 0)) (mkRPoint 1 0)).
  - apply rect_points_sorted. simpl. lia.
  - reflexivity.
Defined.

(** ** Rasterisation *)

Lemma toMask_faults_from_column_zero (RPoint_lt : RPoint → RPoint → bool)
  (init : Z → Z) (r : Region) :
  0 ≤ px (bound_min r) → py (bound_min r) ≤ py (bound_max r) →
  ∃ f, toMask RPoint_lt init r = Fault f.
Proof.
  intros Hx Hy.
  destruct (Z.le_gt_cases (px (bound_min r)) (px (bound_max r))) as [H|H].
  - apply toMask_faults; [lia | done].
  - unfold toMask.
    destruct (Mat_zeros _ _) as [m|f]; simpl; [|by eexists].
    unfold xmap_new.
    destruct (Z.ltb_spec (px (bound_max r) - px (bound_min r)) 0); [|lia].
    simpl. by eexists.
Qed.

(** X24. [toMask] returns no matrix for a region whose [bound_min] has a
    non-negative column and a row not below that of [bound_max]: either an
    allocation has a negative size, or a write leaves the matrix, or, at
    the latest in the last column of the first row swept, [xmap] is indexed
    outside its [bound_max.x − bound_min.x] cells. *)
Theorem toMask_never_completes (RPoint_lt : RPoint → RPoint → bool)
  (init : Z → Z) (r : Region)
  (Hx : 0 ≤ px (bound_min r))
  (Hy : py (bound_min r) ≤ py (bound_max r)) :
  ∃ f, toMask RPoint_lt init r = Fault f.
Proof. by apply toMask_faults_from_column_zero. Qed.

Lemma toMask_never_completes_witness :
  ∃ f, toMask RPoint_lt_rowmajor (λ _, 0)
         (Region_rect (Mat_fill 5 4 0 0 0)) = Fault f.
Proof.
  apply toMask_never_completes; simpl; lia.
Defined.

(** X25. Constructing a region from a matrix at a non-negative column
    offset and rasterising it never yields a mask, in mask mode and, for a
    non-negative height, in rectangle mode, whatever the order on points
    and the initial content of [xmap] are. *)
Theorem constructed_region_toMask_faults
  (RPoint_lt : RPoint → RPoint → bool) (init : Z → Z)
  (m : Mat) (mask : bool) (r : Region)
  (Hr : Region_of_Mat m mask = Ok r)
  (Hx : 0 ≤ roi_x m)
  (Hh : mask = false → 0 ≤ roi_height m) :
  ∃ f, toMask RPoint_lt init r = Fault f.
Proof.
  apply toMask_faults_from_column_zero.
  - destruct mask; simpl in Hr.
    + apply Region_mask_ok in Hr as (Hpts & Hhd & _ & _).
      apply head_Some_elem_of in Hhd.
      apply mask_points_stored in Hpts. rewrite Hpts in Hhd.
      apply mask_stored_elem in Hhd as (i & j & Hi & Hj & _ & ->).
      simpl. lia.
    + injection Hr as <-. simpl. lia.
  - destruct mask; simpl in Hr.
    + apply Region_mask_ok in Hr as (Hpts & Hhd & Hlast & _).
      apply mask_points_stored in Hpts.
      eapply sorted_head_least; [|exact Hhd|by apply last_Some_elem_of].
      rewrite Hpts. apply mask_stored_sorted.
    + injection Hr as <-. simpl. specialize (Hh eq_refl). lia.
Qed.

Lemma constructed_region_toMask_faults_witness :
  ∃ r, Region_of_Mat edge_mask true = Ok r
       ∧ ∃ f, toMask RPoint_lt_rowmajor (λ _, 0) r = Fault f.
Proof.
  eexists. split; [vm_compute; reflexivity|].
  apply (constructed_region_toMask_faults RPoint_lt_rowmajor (λ _, 0)
           edge_mask true).
  - vm_compute. reflexivity.
  - simpl. lia.
  - intros H. discriminate H.
Defined.

(** ** The corner of a rectangle *)

Lemma rect_points_first (m : Mat) :
  1 ≤ roi_width m →
  list_find (λ q, py q = roi_y m) (rect_points m)
  = Some (0%nat, mkRPoint (roi_x m) (roi_y m)).
Proof.
  intros Hw. rewrite rect_points_runs. unfold rect_top.
  rewrite seqZ_cons by lia. rewrite fmap_cons, Z.add_0_r.
  cbn. by rewrite ?decide_True by done.
Qed.

(** X26. In rectangle mode, for an extent of at least one row and one
    column, [inBoundary] accepts the top-left corner of the rectangle, the
    first stored point, exactly when the rectangle starts in row 0. *)
Theorem rect_corner_accepted_iff (m : Mat)
  (Hw : 1 ≤ roi_width m) (Hh : 1 ≤ roi_height m) :
  inBoundary (Region_rect m) (mkRPoint (roi_x m) (roi_y m)) = true
  ↔ roi_y m = 0.
Proof.
  rewrite inBoundary_sorted_indexed;
    [|by apply rect_points_sorted_from_one | done].
  simpl. rewrite rect_points_first by done. split.
  - intros [Hy [= E]]. lia.
  - intros ->. split; [lia | done].
Qed.

Lemma rect_corner_accepted_iff_witness :
  inBoundary (Region_rect (Mat_fill 5 4 3 0 0)) (mkRPoint 3 0) = true
  ↔ 0 = 0.
Proof.
  apply (rect_corner_accepted_iff (Mat_fill 5 4 3 0 0)); simpl; lia.
Defined.
